(** * GeomLibC++ : NURBS curve evaluation and adaptive Simpson quadrature

    A shallow embedding of [Vector.hpp], [Spline.hpp], [NURBS.hpp] and
    [Simpson.hpp].

    Modelling conventions.
    - The template parameter [Real] is instantiated with the exact
      rationals [Qc] (canonical fractions, Leibniz equality).  Rounding is
      therefore out of the picture: every statement below is a statement
      about the algorithms in exact arithmetic.
    - A division whose divisor is zero yields the outcome
      [Err DivisionByZero] (in IEEE arithmetic it would yield an infinity
      or a NaN, which is not a point of the curve).
    - [int] values are unbounded integers [Z], the counters and indices
      staying far from the 32-bit range, but for the factor [r] of
      [dersBasisFuns]: the product [r *= ( p - k )] leaves the 32-bit
      range from the degree 13 on, and is wrapped around modulo [2^32]
      ([int_wrap], what two's complement hardware computes).
    - [std::vector::at] out of range is [Err OutOfRange] (the exception
      [std::out_of_range]); unchecked accesses out of range ([operator[]],
      [front()] and [back()] of an empty vector, an array of non-positive
      size) are [Err Undefined].
    - [while] loops whose termination depends on the data, and the
      recursion of [Simpson::aux], take a [fuel] argument and yield
      [Err OutOfFuel] when it runs out; termination theorems state that
      enough fuel gives a proper outcome.
    - An integrand of [Simpson] is a function to the rationals: its
      values are finite numbers.
    - Local arrays ([N_], [left], [right], [ndu], [a], the storage of
      [NURBS::Matrix]) are lists whose cells initially hold [0]; the
      algorithms never read a cell before writing it. *)

From Stdlib Require Import ZArith QArith Qcanon Qcabs Lia Lqa.
From stdpp Require Import base numbers list option vector.

Local Open Scope Z_scope.
Local Open Scope Qc_scope.

(** ** Outcomes *)

Inductive error : Set :=
| OutOfRange
| Undefined
| DivisionByZero
| OutOfFuel.

Inductive result (A : Type) : Type :=
| Ok (a : A)
| Err (e : error).

Arguments Ok {A} a.
Arguments Err {A} e.

#[global] Instance result_ret : MRet result := @Ok.

#[global] Instance result_bind : MBind result := λ A B k c,
  match c with
  | Ok a => k a
  | Err e => Err e
  end.

#[global] Instance error_eq_dec : EqDecision error.
Proof. solve_decision. Defined.

#[global] Instance result_eq_dec {A : Type} `{EqDecision A} : EqDecision (result A).
Proof. solve_decision. Defined.

(** [for (i = lo; i < lo + count; i++) s = body(i, s);] *)
Fixpoint for_up {St : Type} (body : Z → St → result St) (lo : Z) (count : nat)
    (s : St) : result St :=
  match count with
  | O => Ok s
  | S c => s' ← body lo s; for_up body (lo + 1)%Z c s'
  end.

(** [for (i = lo; i <= hi; i++) s = body(i, s);] *)
Definition for_to {St : Type} (body : Z → St → result St) (lo hi : Z) (s : St)
  : result St :=
  for_up body lo (Z.to_nat (hi - lo + 1)) s.

(** ** Real numbers *)

Abbreviation Real := Qc.

#[global] Instance Real_inhabited : Inhabited Real := populate 0.

(** [x / y] *)
Definition rdiv (x y : Real) : result Real :=
  if decide (y = 0) then Err DivisionByZero else Ok (x / y).

(** [std::max(a, b)] is [(a < b) ? b : a]; [std::min(a, b)] is
    [(b < a) ? b : a]. *)
Definition std_max (a b : Real) : Real := if decide (a < b) then b else a.
Definition std_min (a b : Real) : Real := if decide (b < a) then b else a.

(** [fabs] *)
Definition fabs (x : Real) : Real := Qcabs x.

(** ** Arrays and [std::vector] accesses *)

(** A cell of a local array, read and written within the declared bounds. *)
Definition rd (a : list Real) (i : Z) : Real := a !!! Z.to_nat i.
Definition wr (a : list Real) (i : Z) (x : Real) : list Real := <[Z.to_nat i := x]> a.

(** A cell of a local two-dimensional array. *)
Definition rd2 (a : list (list Real)) (i j : Z) : Real := rd (a !!! Z.to_nat i) j.
Definition wr2 (a : list (list Real)) (i j : Z) (x : Real) : list (list Real) :=
  <[Z.to_nat i := wr (a !!! Z.to_nat i) j x]> a.

(** [Real a[size]] and [Real a[m][n]] *)
Definition array (size : Z) : list Real := replicate (Z.to_nat size) 0.
Definition array2 (m n : Z) : list (list Real) := replicate (Z.to_nat m) (array n).

(** [U.at(i)] *)
Definition at_ {A : Type} (U : list A) (i : Z) : result A :=
  if decide (0 ≤ i)%Z then
    match U !! Z.to_nat i with
    | Some x => Ok x
    | None => Err OutOfRange
    end
  else Err OutOfRange.

(** [P[i]], unchecked *)
Definition index {A : Type} (P : list A) (i : Z) : result A :=
  if decide (0 ≤ i)%Z then
    match P !! Z.to_nat i with
    | Some x => Ok x
    | None => Err Undefined
    end
  else Err Undefined.

(** [U.front()] and [U.back()] *)
Definition front {A : Type} (U : list A) : result A :=
  match U with
  | [] => Err Undefined
  | x :: _ => Ok x
  end.

Definition back {A : Type} (U : list A) : result A :=
  match last U with
  | Some x => Ok x
  | None => Err Undefined
  end.

(** ** Vector.hpp *)

Module Vector.

Record Vector (N : nat) : Type := mk
  { coords : vec Real N;   (* _v *)
    weight : Real }.       (* _w *)

Arguments mk {N} coords weight.
Arguments coords {N} v.
Arguments weight {N} v.

#[global] Instance Vector_eq_dec {N : nat} : EqDecision (Vector N).
Proof. solve_decision. Defined.

#[global] Instance Vector_inhabited {N : nat} : Inhabited (Vector N) :=
  populate (mk (vreplicate N 0) 1).

Section Ops.
Context {N : nat}.

(** [Vector()] *)
Definition origin : Vector N :=
  mk (vreplicate N 0) 1.

(** [Vector(const Real * vect, const Real & w = 1.)] *)
Definition make (vect : vec Real N) (w : Real) : Vector N := mk vect w.
Definition point (vect : vec Real N) : Vector N := mk vect 1.

(** [operator==]: [res = true], then [res = res && _v[ i ] == vect[ i ]]
    for every [i] *)
Definition equal (a b : Vector N) : bool :=
  foldl (λ res xy, res && bool_decide (xy.1 = xy.2)) true
    (zip (vec_to_list (coords a)) (vec_to_list (coords b))).

(** [operator!=]: [res = false], then [res = res || _v[ i ] != vect[ i ]]
    for every [i] *)
Definition not_equal (a b : Vector N) : bool :=
  foldl (λ res xy, res || bool_decide (xy.1 ≠ xy.2)) false
    (zip (vec_to_list (coords a)) (vec_to_list (coords b))).

(** [v[ i ]], for an index within the dimension *)
Definition coord (a : Vector N) (i : nat) : Real :=
  vec_to_list (coords a) !!! i.

(** [operator-()] *)
Definition opp (a : Vector N) : Vector N :=
  mk (vmap Qcopp (coords a)) (weight (@origin)).

(** [operator+] *)
Definition add (a b : Vector N) : Vector N :=
  mk (vzip_with Qcplus (coords a) (coords b)) (weight (@origin)).

(** [operator+=] *)
Definition add_assign (a b : Vector N) : Vector N :=
  mk (vzip_with Qcplus (coords a) (coords b)) (weight a).

(** [operator-] (binary) *)
Definition sub (a b : Vector N) : Vector N :=
  mk (vzip_with Qcminus (coords a) (coords b)) (weight (@origin)).

(** [operator*( const Real & r )] *)
Definition scale (a : Vector N) (r : Real) : Vector N :=
  mk (vmap (λ x, x * r) (coords a)) (weight (@origin)).

(** [operator/( const Real & r )] *)
Definition div (a : Vector N) (r : Real) : result (Vector N) :=
  if decide (r = 0) then Err DivisionByZero
  else Ok (mk (vmap (λ x, x / r) (coords a)) (weight (@origin))).

(** [operator*( const Vector & vect )], the dot product *)
Definition dot (a b : Vector N) : Real :=
  foldl (λ r xy, r + xy.1 * xy.2) 0
    (zip (vec_to_list (coords a)) (vec_to_list (coords b))).
End Ops.

(** [operator^] on [Vector<3>] *)
Definition cross3 (u v : Vector 3) : Vector 3 :=
  mk [# coord u 1 * coord v 2 - coord u 2 * coord v 1;
        coord u 2 * coord v 0 - coord u 0 * coord v 2;
        coord u 0 * coord v 1 - coord u 1 * coord v 0]
     (weight (@origin 3)).

(** [operator^] on [Vector<7>] *)
Definition cross7 (u v : Vector 7) : Vector 7 :=
  mk [# coord u 1 * coord v 3 - coord u 3 * coord v 1
        + coord u 2 * coord v 6 - coord u 6 * coord v 2
        + coord u 4 * coord v 5 - coord u 5 * coord v 4;
        coord u 2 * coord v 4 - coord u 4 * coord v 2
        + coord u 3 * coord v 0 - coord u 0 * coord v 3
        + coord u 5 * coord v 6 - coord u 6 * coord v 5;
        coord u 3 * coord v 5 - coord u 5 * coord v 3
        + coord u 4 * coord v 1 - coord u 1 * coord v 4
        + coord u 6 * coord v 0 - coord u 0 * coord v 6;
        coord u 4 * coord v 6 - coord u 6 * coord v 4
        + coord u 5 * coord v 2 - coord u 2 * coord v 5
        + coord u 0 * coord v 1 - coord u 1 * coord v 0;
        coord u 5 * coord v 0 - coord u 0 * coord v 5
        + coord u 6 * coord v 3 - coord u 3 * coord v 6
        + coord u 1 * coord v 2 - coord u 2 * coord v 1;
        coord u 6 * coord v 1 - coord u 1 * coord v 6
        + coord u 0 * coord v 4 - coord u 4 * coord v 0
        + coord u 2 * coord v 3 - coord u 3 * coord v 2;
        coord u 0 * coord v 2 - coord u 2 * coord v 0
        + coord u 1 * coord v 5 - coord u 5 * coord v 1
        + coord u 3 * coord v 4 - coord u 4 * coord v 3]
     (weight (@origin 7)).

End Vector.

Import Vector.
Abbreviation Point := Vector.

(** ** Spline.hpp *)

Record Spline (N : nat) : Type := mkSpline
  { controlPoints : list (Point N);   (* _controlPoints *)
    knotVector : list Real;           (* _knotVector *)
    getDegree : Z;                    (* _degree *)
    isUniform : bool;                 (* _uniform *)
    isClamped : bool }.               (* _clamped *)

Arguments mkSpline {N}.
Arguments controlPoints {N} s.
Arguments knotVector {N} s.
Arguments getDegree {N} s.
Arguments isUniform {N} s.
Arguments isClamped {N} s.

(** The integer [i] as a [Real]: the cast [(Real)( i )]. *)
Definition Real_of_int (i : Z) : Real := Q2Qc (inject_Z i).

(** A 32-bit [int] after an operation that may overflow: the value
    modulo [2^32], in [[-2^31, 2^31)]. *)
Definition int_wrap (z : Z) : Z := ((z + 2 ^ 31) mod 2 ^ 32 - 2 ^ 31)%Z.

Section SplineOps.
Context {N : nat}.

Definition setDegree (n : Z) (s : Spline N) : Spline N :=
  mkSpline (controlPoints s) (knotVector s) n (isUniform s) (isClamped s).


Definition setClamped (clamped : bool) (s : Spline N) : Spline N :=
  mkSpline (controlPoints s) (knotVector s) (getDegree s) (isUniform s) clamped.

Definition setControlPoints (cps : list (Point N)) (s : Spline N) : Spline N :=
  mkSpline cps (knotVector s) (getDegree s) (isUniform s) (isClamped s).

(** [for ( ; i < bound; i++ ) _knotVector.push_back( value(i) );]
    started at [i]; returns the knots pushed. *)
Definition push_range (i bound : Z) (value : Z → Real) : list Real :=
  map (λ k : nat, value (i + Z.of_nat k)%Z) (seq 0 (Z.to_nat (bound - i))).

(** The knots written by [computeUniformKnotVector] after
    [_knotVector.clear()]. *)
Definition uniformKnots (numPoints degree : Z) (clamped : bool) : list Real :=
  let numKnots := (numPoints + degree + 1)%Z in
  let n := (numPoints - degree)%Z in
  if clamped then
    let k1 := push_range 0 (degree + 1) (λ _, 0) in
    let i1 := Z.max 0 (degree + 1) in
    let k2 := push_range i1 numPoints
                (λ i, Real_of_int (i - degree) / Real_of_int n) in
    let i2 := Z.max i1 numPoints in
    let k3 := push_range i2 numKnots (λ _, 1) in
    k1 ++ k2 ++ k3
  else
    push_range 0 numKnots (λ i, Real_of_int i / Real_of_int (numKnots - 1)).

Definition computeUniformKnotVector (s : Spline N) : Spline N :=
  if negb (isUniform s) then s
  else
    mkSpline (controlPoints s)
      (uniformKnots (Z.of_nat (length (controlPoints s))) (getDegree s)
         (isClamped s))
      (getDegree s) (isUniform s) (isClamped s).

(** [Spline( int degree )], [Spline( points, degree )],
    [Spline( points, knots, degree )] *)
Definition Spline_new (degree : Z) : Spline N :=
  computeUniformKnotVector (mkSpline [] [] degree true true).

Definition Spline_of_points (points : list (Point N)) (degree : Z) : Spline N :=
  computeUniformKnotVector (mkSpline points [] degree true true).

Definition Spline_of_knots (points : list (Point N)) (knots : list Real)
    (degree : Z) : Spline N :=
  computeUniformKnotVector (mkSpline points knots degree false true).

(** [pushControlPoint] *)
Definition pushControlPoint (point : Point N) (s : Spline N) : Spline N :=
  computeUniformKnotVector (setControlPoints (controlPoints s ++ [point]) s).

(** [insertControlPoint], the iterator given as an offset from [begin()] *)
Definition insertControlPoint (position : nat) (point : Point N) (s : Spline N)
  : Spline N :=
  computeUniformKnotVector
    (setControlPoints
       (take position (controlPoints s) ++ point :: drop position (controlPoints s))
       s).

(** [eraseControlPoint] *)
Definition eraseControlPoint (position : nat) (s : Spline N) : Spline N :=
  computeUniformKnotVector
    (setControlPoints (delete position (controlPoints s)) s).
End SplineOps.

(** ** NURBS.hpp *)

(** [NURBS::Matrix]: [operator[]( i )] returns [&data[ rows * i ]]. *)
Module Matrix.

Record Matrix : Type := mk
  { rows : Z;
    cols : Z;
    data : list Real }.

(** [sizeof( Real )] for the default [Real = float] *)
Definition sizeof_Real : Z := 4.

(** [Matrix( int m, int n )] *)
Definition new (m n : Z) : Matrix :=
  mk m n (array (m * n * sizeof_Real)).

(** [M[ i ][ j ]] as an rvalue and as an lvalue *)
Definition get (M : Matrix) (i j : Z) : Real :=
  rd (data M) (rows M * i + j).

Definition set (M : Matrix) (i j : Z) (x : Real) : Matrix :=
  mk (rows M) (cols M) (wr (data M) (rows M * i + j) x).

End Matrix.

Section NURBS.
Context {N : nat}.

(** The [while] loop of [findSpan]. *)
Fixpoint findSpan_while (fuel : nat) (u : Real) (U : list Real)
    (low high mid : Z) : result Z :=
  match fuel with
  | O => Err OutOfFuel
  | S fuel' =>
      Umid ← at_ U mid;
      if decide (u < Umid) then
        findSpan_while fuel' u U low mid ((low + mid) `quot` 2)
      else
        Umid1 ← at_ U (mid + 1);
        if decide (Umid1 ≤ u) then
          findSpan_while fuel' u U mid high ((mid + high) `quot` 2)
        else Ok mid
  end.

Definition findSpan (fuel : nat) (n p : Z) (u : Real) (U : list Real)
  : result Z :=
  Up ← at_ U p;
  if decide (u ≤ Up) then Ok p
  else
    Un1 ← at_ U (n + 1);
    if decide (Un1 ≤ u) then Ok n
    else findSpan_while fuel u U p (n + 1) ((p + (n + 1)) `quot` 2).

(** The body of the inner loop of [basisFuns], on [(N_, saved)]. *)
Definition basisFuns_inner (left_ right_ : list Real) (j r : Z)
    (st : list Real * Real) : result (list Real * Real) :=
  let '(N_, saved) := st in
  temp ← rdiv (rd N_ r) (rd right_ (r + 1) + rd left_ (j - r));
  Ok (wr N_ r (saved + rd right_ (r + 1) * temp), rd left_ (j - r) * temp).

(** The body of the outer loop of [basisFuns], on [(N_, left, right)]. *)
Definition basisFuns_outer (i : Z) (u : Real) (U : list Real) (j : Z)
    (st : list Real * list Real * list Real)
  : result (list Real * list Real * list Real) :=
  let '(N_, left_, right_) := st in
  Ul ← at_ U (i + 1 - j);
  let left_ := wr left_ j (u - Ul) in
  Ur ← at_ U (i + j);
  let right_ := wr right_ j (Ur - u) in
  '(N_, saved) ← for_up (basisFuns_inner left_ right_ j) 0 (Z.to_nat j) (N_, 0);
  Ok (wr N_ j saved, left_, right_).

(** [basisFuns( i, u, p, U, N_ )]: returns the array [N_]. *)
Definition basisFuns (i : Z) (u : Real) (p : Z) (U : list Real)
  : result (list Real) :=
  let N_ := wr (array (p + 1)) 0 1 in
  '(N_, _, _) ← for_to (basisFuns_outer i u U) 1 p
                  (N_, array (p + 1), array (p + 1));
  Ok N_.

(** [curvePoint( n, p, U, Pw, u, C )]: returns [C]. *)
Definition curvePoint (fuel : nat) (n p : Z) (U : list Real)
    (Pw : list (Point N)) (u : Real) : result (Point N) :=
  if decide (p < 0)%Z then Err Undefined
  else
    span ← findSpan fuel n p u U;
    N_ ← basisFuns span u p U;
    Cw ← for_to (λ j Cw,
                   Pi ← index Pw (span - p + j);
                   Ok (add_assign Cw (scale (scale Pi (weight Pi)) (rd N_ j))))
            0 p origin;
    div Cw (weight Cw).

(** [while ( u < minKnot ) u += total;] *)
Fixpoint wrap_up (fuel : nat) (minKnot total u : Real) : result Real :=
  match fuel with
  | O => Err OutOfFuel
  | S fuel' =>
      if decide (u < minKnot) then wrap_up fuel' minKnot total (u + total)
      else Ok u
  end.

(** [while ( u >= maxKnot ) u -= total;] *)
Fixpoint wrap_down (fuel : nat) (maxKnot total u : Real) : result Real :=
  match fuel with
  | O => Err OutOfFuel
  | S fuel' =>
      if decide (maxKnot ≤ u) then wrap_down fuel' maxKnot total (u - total)
      else Ok u
  end.

(** [adjustParameter( u )]: returns the adjusted [u]. *)
Definition adjustParameter (fuel : nat) (s : Spline N) (u : Real)
  : result Real :=
  minKnot ← front (knotVector s);
  maxKnot ← back (knotVector s);
  if isClamped s then
    let u := std_max u minKnot in
    Ok (std_min u maxKnot)
  else
    let total := fabs (maxKnot - minKnot) in
    u ← wrap_up fuel minKnot total u;
    wrap_down fuel maxKnot total u.

(** The first double loop of [dersBasisFuns]: inner body on
    [(ndu, saved)]. *)
Definition ders_ndu_inner (left_ right_ : list Real) (j r : Z)
    (st : list (list Real) * Real) : result (list (list Real) * Real) :=
  let '(ndu, saved) := st in
  (* Lower triangle *)
  let ndu := wr2 ndu j r (rd right_ (r + 1) + rd left_ (j - r)) in
  temp ← rdiv (rd2 ndu r (j - 1)) (rd2 ndu j r);
  (* Upper triangle *)
  let ndu := wr2 ndu r j (saved + rd right_ (r + 1) * temp) in
  Ok (ndu, rd left_ (j - r) * temp).

Definition ders_ndu_outer (i : Z) (u : Real) (U : list Real) (j : Z)
    (st : list (list Real) * list Real * list Real)
  : result (list (list Real) * list Real * list Real) :=
  let '(ndu, left_, right_) := st in
  Ul ← at_ U (i + 1 - j);
  let left_ := wr left_ j (u - Ul) in
  Ur ← at_ U (i + j);
  let right_ := wr right_ j (Ur - u) in
  '(ndu, saved) ← for_up (ders_ndu_inner left_ right_ j) 0 (Z.to_nat j) (ndu, 0);
  Ok (wr2 ndu j j saved, left_, right_).

(** The loop on [j] from [j1] to [j2], on [(a, d)]. *)
Definition ders_a_inner (ndu : list (list Real)) (s1 s2 rk pk j : Z)
    (st : list (list Real) * Real) : result (list (list Real) * Real) :=
  let '(a, d) := st in
  x ← rdiv (rd2 a s1 j - rd2 a s1 (j - 1)) (rd2 ndu (pk + 1) (rk + j));
  let a := wr2 a s2 j x in
  Ok (a, d + rd2 a s2 j * rd2 ndu (rk + j) pk).

(** The loop on [k] from 1 to [n], on [(ders, a, s1, s2)]. *)
Definition ders_k_body (ndu : list (list Real)) (p r k : Z)
    (st : Matrix.Matrix * list (list Real) * Z * Z)
  : result (Matrix.Matrix * list (list Real) * Z * Z) :=
  let '(ders, a, s1, s2) := st in
  let d := 0 in
  let rk := (r - k)%Z in
  let pk := (p - k)%Z in
  '(a, d) ← (if decide (k ≤ r)%Z then
               x ← rdiv (rd2 a s1 0) (rd2 ndu (pk + 1) rk);
               let a := wr2 a s2 0 x in
               Ok (a, rd2 a s2 0 * rd2 ndu rk pk)
             else Ok (a, d));
  let j1 := if decide (-1 ≤ rk)%Z then 1%Z else (- rk)%Z in
  let j2 := if decide (r - 1 ≤ pk)%Z then (k - 1)%Z else (p - r)%Z in
  '(a, d) ← for_to (ders_a_inner ndu s1 s2 rk pk) j1 j2 (a, d);
  '(a, d) ← (if decide (r ≤ pk)%Z then
               x ← rdiv (- rd2 a s1 (k - 1)) (rd2 ndu (pk + 1) r);
               let a := wr2 a s2 k x in
               Ok (a, d + rd2 a s2 k * rd2 ndu r pk)
             else Ok (a, d));
  let ders := Matrix.set ders k r d in
  (* Switch rows *)
  Ok (ders, a, s2, s1).

(** The loop on [r] from 0 to [p], on [(ders, a)]. *)
Definition ders_r_body (ndu : list (list Real)) (p n r : Z)
    (st : Matrix.Matrix * list (list Real))
  : result (Matrix.Matrix * list (list Real)) :=
  let '(ders, a) := st in
  let a := wr2 a 0 0 1 in
  '(ders, a, _, _) ← for_to (ders_k_body ndu p r) 1 n (ders, a, 0%Z, 1%Z);
  Ok (ders, a).

(** The last loop: [ders[ k ][ j ] *= r] for every [j], then
    [r *= ( p - k )], a product of [int]s that wraps around; on
    [(ders, r)]. *)
Definition ders_factor_body (p k : Z) (st : Matrix.Matrix * Z)
  : result (Matrix.Matrix * Z) :=
  let '(ders, r) := st in
  ders ← for_to (λ j ders,
                   Ok (Matrix.set ders k j (Matrix.get ders k j * Real_of_int r)))
           0 p ders;
  Ok (ders, int_wrap (r * (p - k))).

(** [dersBasisFuns( i, u, p, n, U, ders )]: returns [ders]. *)
Definition dersBasisFuns (i : Z) (u : Real) (p n : Z) (U : list Real)
    (ders : Matrix.Matrix) : result Matrix.Matrix :=
  let ndu := array2 (p + 1) (p + 1) in
  let a := array2 2 (p + 1) in
  let ndu := wr2 ndu 0 0 1 in
  '(ndu, _, _) ← for_to (ders_ndu_outer i u U) 1 p
                   (ndu, array (p + 1), array (p + 1));
  (* Load the basis functions *)
  ders ← for_to (λ j ders, Ok (Matrix.set ders 0 j (rd2 ndu j p))) 0 p ders;
  (* This section computes the derivatives *)
  '(ders, _) ← for_to (ders_r_body ndu p n) 0 p (ders, a);
  (* Multiply through by the correct factors *)
  '(ders, _) ← for_to (ders_factor_body p) 1 n (ders, p);
  Ok ders.

(** [CK[ k ] += P[ span-p+j ] * nders[ k ][ j ]], on the array [CK]. *)
Definition curveDerivs_body (p span : Z) (P : list (Point N))
    (nders : Matrix.Matrix) (k j : Z) (CK : list (Point N))
  : result (list (Point N)) :=
  Pj ← index P (span - p + j);
  Ok (<[Z.to_nat k := add_assign (CK !!! Z.to_nat k)
                        (scale Pj (Matrix.get nders k j))]> CK).

(** [curveDerivs( n, p, U, P, u, d, CK )]: returns the array [CK], which
    the caller declared as [Point CK[ d+1 ]]. *)
Definition curveDerivs (fuel : nat) (n p : Z) (U : list Real)
    (P : list (Point N)) (u : Real) (d : Z) (CK : list (Point N))
  : result (list (Point N)) :=
  if decide (p < 0)%Z then Err Undefined
  else
    let nders := Matrix.new (d + 1) (p + 1) in
    let du := Z.min d p in
    span ← findSpan fuel n p u U;
    nders ← dersBasisFuns span u p du U nders;
    for_to (λ k CK, for_to (curveDerivs_body p span P nders k) 0 p CK) 0 du CK.

(** [NURBS::derivative( t, d )] *)
Definition derivative (fuel : nat) (s : Spline N) (t : Real) (d : Z)
  : result (Point N) :=
  if decide (d < 0)%Z then Err Undefined
  else
    let CK := replicate (Z.to_nat (d + 1)) (@origin N) in
    let p := getDegree s in
    let n := (Z.of_nat (length (controlPoints s)) - 1)%Z in
    u ← adjustParameter fuel s t;
    CK ← curveDerivs fuel n p (knotVector s) (controlPoints s) u d CK;
    index CK d.

(** [NURBS::operator()( t )] *)
Definition position (fuel : nat) (s : Spline N) (t : Real) : result (Point N) :=
  let p := getDegree s in
  let n := (Z.of_nat (length (controlPoints s)) - 1)%Z in
  u ← adjustParameter fuel s t;
  curvePoint fuel n p (knotVector s) (controlPoints s) u.
End NURBS.

(** ** Simpson.hpp *)

Module Simpson.

(** Numeric literals of the source, as [Real]s. *)
Local Abbreviation lit := Real_of_int.

Record Simpson : Type := mk
  { getAccuracy : Real;            (* _accuracy *)
    getMaxRecursionDepth : Z }.    (* _maxRecursionDepth *)

(** [Simpson( Real accuracy = 1e-6, int max = 5 )] *)
Definition default : Simpson :=
  mk (Q2Qc (1 # 1000000)) 5.

(** What one activation of [aux] computes before its test: the two new
    samples and the refined estimates. *)
Record refinement : Type := mkRefinement
  { c : Real; fd : Real; fe : Real; Sleft : Real; Sright : Real; S2 : Real }.

Definition refine (f : Real → Real) (a b fa fb fc : Real) : refinement :=
  let c := (a + b) / lit 2 in
  let h := b - a in
  let d := (a + c) / lit 2 in
  let e := (c + b) / lit 2 in
  let fd := f d in
  let fe := f e in
  let Sleft := (h / lit 12) * (fa + lit 4 * fd + fc) in
  let Sright := (h / lit 12) * (fc + lit 4 * fe + fb) in
  mkRefinement c fd fe Sleft Sright (Sleft + Sright).

(** [bottom <= 0 || fabs( S2 - S ) <= 15. * eps] *)
Definition accept (bottom : Z) (eps S S2 : Real) : bool :=
  bool_decide (bottom ≤ 0)%Z || bool_decide (fabs (S2 - S) ≤ lit 15 * eps).

(** The shape of the recursion of [aux]: the number of activations that
    return without recursing (leaves) and the depth of the deepest
    activation below the first one. *)
Record shape : Type := mkShape { leaves : nat; depth : nat }.

#[global] Instance shape_eq_dec : EqDecision shape.
Proof. solve_decision. Defined.

(** [Simpson::aux], as the source has it: the activation returns when its
    test holds and calls itself twice otherwise.  Nothing in the
    definition bounds the recursion but the test of the source: [fuel]
    is the number of nested activations allowed, and the outcome is
    [Err OutOfFuel] when an activation would exceed it.  An activation
    returns its value together with the shape of the recursion below
    it. *)
Fixpoint aux_run (fuel : nat) (f : Real → Real) (a b eps S fa fb fc : Real)
    (bottom : Z) : result (Real * shape) :=
  match fuel with
  | O => Err OutOfFuel
  | S fuel' =>
      let r := refine f a b fa fb fc in
      if accept bottom eps S (S2 r) then
        Ok (S2 r + (S2 r - S) / lit 15, mkShape 1 0)
      else
        '(vl, sl) ← aux_run fuel' f a (c r) (eps / lit 2) (Sleft r) fa fc (fd r)
                      (bottom - 1);
        '(vr, sr) ← aux_run fuel' f (c r) b (eps / lit 2) (Sright r) fc fb (fe r)
                      (bottom - 1);
        Ok (vl + vr,
            mkShape (leaves sl + leaves sr) (1 + Nat.max (depth sl) (depth sr)))
  end.

(** [Simpson::operator()( f, a, b )], calling [aux_run] *)
Definition integrate_run (fuel : nat) (I : Simpson) (f : Real → Real)
    (a b : Real) : result (Real * shape) :=
  let c := (a + b) / lit 2 in
  let h := b - a in
  let fa := f a in
  let fb := f b in
  let fc := f c in
  let S := (h / lit 6) * (fa + lit 4 * fc + fb) in
  aux_run fuel f a b (getAccuracy I) S fa fb fc (getMaxRecursionDepth I).

(** The value that [aux_run] returns, as a total function: by recursion
    on [k], which [aux] below sets to [bottom] (the recursive calls are
    made with [bottom - 1] and only when [0 < bottom]).  That [aux_run]
    returns, and returns this value, is [aux_run_total] below. *)
Fixpoint aux_rec (k : nat) (f : Real → Real) (a b eps S fa fb fc : Real)
    (bottom : Z) : Real :=
  let r := refine f a b fa fb fc in
  if accept bottom eps S (S2 r) then S2 r + (S2 r - S) / lit 15
  else
    match k with
    | O => S2 r + (S2 r - S) / lit 15
    | S k' =>
        aux_rec k' f a (c r) (eps / lit 2) (Sleft r) fa fc (fd r) (bottom - 1)
        + aux_rec k' f (c r) b (eps / lit 2) (Sright r) fc fb (fe r) (bottom - 1)
    end.

Definition aux (f : Real → Real) (a b eps S fa fb fc : Real) (bottom : Z) : Real :=
  aux_rec (Z.to_nat bottom) f a b eps S fa fb fc bottom.

(** The value that [integrate_run] returns ([integrate_run_total]
    below). *)
Definition integrate (I : Simpson) (f : Real → Real) (a b : Real) : Real :=
  let c := (a + b) / lit 2 in
  let h := b - a in
  let fa := f a in
  let fb := f b in
  let fc := f c in
  let S := (h / lit 6) * (fa + lit 4 * fc + fb) in
  aux f a b (getAccuracy I) S fa fb fc (getMaxRecursionDepth I).

(** The shape that [aux_run] returns, in the same way. *)
Fixpoint aux_shape_rec (k : nat) (f : Real → Real) (a b eps S fa fb fc : Real)
    (bottom : Z) : shape :=
  let r := refine f a b fa fb fc in
  if accept bottom eps S (S2 r) then mkShape 1 0
  else
    match k with
    | O => mkShape 1 0
    | S k' =>
        let sl := aux_shape_rec k' f a (c r) (eps / lit 2) (Sleft r) fa fc (fd r)
                    (bottom - 1) in
        let sr := aux_shape_rec k' f (c r) b (eps / lit 2) (Sright r) fc fb (fe r)
                    (bottom - 1) in
        mkShape (leaves sl + leaves sr) (1 + Nat.max (depth sl) (depth sr))
    end.

Definition aux_shape (f : Real → Real) (a b eps S fa fb fc : Real) (bottom : Z)
  : shape :=
  aux_shape_rec (Z.to_nat bottom) f a b eps S fa fb fc bottom.

Definition integrate_shape (I : Simpson) (f : Real → Real) (a b : Real) : shape :=
  let c := (a + b) / lit 2 in
  let h := b - a in
  let fa := f a in
  let fb := f b in
  let fc := f c in
  let S := (h / lit 6) * (fa + lit 4 * fc + fb) in
  aux_shape f a b (getAccuracy I) S fa fb fc (getMaxRecursionDepth I).

End Simpson.

(** ** Notions of the specification *)

Section Notions.
Context {N : nat}.


(** Non-decreasing knots. *)
Definition nondecreasing (U : list Real) : Prop :=
  ∀ (i j : nat) (x y : Real), (i ≤ j)%nat → U !! i = Some x → U !! j = Some y → x ≤ y.

(** A configuration valid for evaluation: [numKnots = numControlPoints +
    degree + 1], non-decreasing knots, at least [degree + 1] control
    points, weights that are not zero. *)
Definition valid_configuration (s : Spline N) : Prop :=
  (0 ≤ getDegree s)%Z
  ∧ (getDegree s + 1 ≤ Z.of_nat (length (controlPoints s)))%Z
  ∧ Z.of_nat (length (knotVector s))
    = (Z.of_nat (length (controlPoints s)) + getDegree s + 1)%Z
  ∧ nondecreasing (knotVector s)
  ∧ Forall (λ P, weight P ≠ 0) (controlPoints s).

(** The configurations that the specification wants rejected. *)
Definition invalid_configuration (s : Spline N) : Prop :=
  (Z.of_nat (length (controlPoints s)) - 1 < getDegree s)%Z
  ∨ knotVector s = []
  ∨ Z.of_nat (length (knotVector s))
    ≠ (Z.of_nat (length (controlPoints s)) + getDegree s + 1)%Z.

(** Non-rational: every weight is 1. *)
Definition non_rational (s : Spline N) : Prop :=
  Forall (λ P, weight P = 1) (controlPoints s).

(** The knot of index [i] of a uniform clamped spline, in closed form. *)
Definition clamped_knot (numPoints degree i : Z) : Real :=
  if decide (i ≤ degree)%Z then 0
  else if decide (i < numPoints)%Z then
    Real_of_int (i - degree) / Real_of_int (numPoints - degree)
  else 1.

(** Clamped knots for degree [p] and [n + 1] control points: the first
    knot [a] and the last knot [b] have multiplicity [p + 1]. *)
Definition clamped_knots (p n : Z) (U : list Real) (a b : Real) : Prop :=
  (∀ i, (0 ≤ i ≤ p)%Z → at_ U i = Ok a)
  ∧ (∀ i, (n + 1 ≤ i ≤ n + p + 1)%Z → at_ U i = Ok b)
  ∧ (∃ x, at_ U (p + 1) = Ok x ∧ a < x)
  ∧ (∃ y, at_ U n = Ok y ∧ y < b).

(** Following the words of the specification, for comparison with
    [position]: the homogeneous sum of [Pi * wi * Ni] over the [p + 1]
    influencing control points, and the sum of [wi * Ni]. *)
Definition homogeneous_sums (fuel : nat) (s : Spline N) (t : Real)
  : result (vec Real N * Real) :=
  let p := getDegree s in
  let n := (Z.of_nat (length (controlPoints s)) - 1)%Z in
  u ← adjustParameter fuel s t;
  if decide (p < 0)%Z then Err Undefined
  else
    span ← findSpan fuel n p u (knotVector s);
    N_ ← basisFuns span u p (knotVector s);
    for_to (λ j '(num, den),
              Pi ← index (controlPoints s) (span - p + j);
              Ok (vzip_with Qcplus num
                    (vmap (λ x, x * weight Pi * rd N_ j) (coords Pi)),
                  den + weight Pi * rd N_ j))
      0 p (vreplicate N 0, 0).

(** The rational point of the specification: the first sum divided by
    the second. *)
Definition rational_point (fuel : nat) (s : Spline N) (t : Real)
  : result (vec Real N) :=
  '(num, den) ← homogeneous_sums fuel s t;
  if decide (den = 0) then Err DivisionByZero
  else Ok (vmap (λ x, x / den) num).
End Notions.

(** ** Polynomials, for the analytic derivative of a polynomial curve *)

(** Coefficients in increasing degree. *)
Fixpoint peval (c : list Real) (t : Real) : Real :=
  match c with
  | [] => 0
  | c0 :: c' => c0 + t * peval c' t
  end.

Fixpoint pderive_from (k : Z) (c : list Real) : list Real :=
  match c with
  | [] => []
  | ck :: c' => Real_of_int k * ck :: pderive_from (k + 1) c'
  end.

(** The derivative of a polynomial. *)
Definition pderive (c : list Real) : list Real :=
  match c with
  | [] => []
  | _ :: c' => pderive_from 1 c'
  end.

(** ** Configurations used as examples *)

Module Examples.

Definition q (a b : Z) : Real := Q2Qc (a # Z.to_pos b).

(** Degree 1, two control points of weight 2 at 0 and 1, uniform clamped
    knots [0, 0, 1, 1]. *)
Definition weighted_segment : Spline 1 :=
  Spline_of_points [make [# q 0 1] (q 2 1); make [# q 1 1] (q 2 1)] 1.

(** Degree 1, two unit-weight control points at 0 and 1. *)
Definition segment : Spline 1 :=
  Spline_of_points [point [# q 0 1]; point [# q 1 1]] 1.

(** The curve of [main.cpp]: degree 3, control points (0,0,0), (1,0,0),
    (1,1,0), (0,1,0), uniform clamped knots [0,0,0,0,1,1,1,1]. *)
Definition main_curve : Spline 3 :=
  pushControlPoint (point [# q 0 1; q 1 1; q 0 1])
    (pushControlPoint (point [# q 1 1; q 1 1; q 0 1])
       (pushControlPoint (point [# q 1 1; q 0 1; q 0 1])
          (pushControlPoint (point [# q 0 1; q 0 1; q 0 1]) (Spline_new 3)))).

(** Degree 3, unit-weight control points 1, 0, 0, 0 on a line, uniform
    clamped knots: the curve [(1 - t)^3] on [0, 1]. *)
Definition cubic : Spline 1 :=
  Spline_of_points
    [point [# q 1 1]; point [# q 0 1]; point [# q 0 1]; point [# q 0 1]] 3.

(** [(1 - t)^3 = 1 - 3 t + 3 t^2 - t^3] *)
Definition cubic_poly : list Real := [q 1 1; q (-3) 1; q 3 1; q (-1) 1].

(** Three unit-weight control points, degree 1, not clamped: uniform
    knots [0, 1/4, 1/2, 3/4, 1]. *)
Definition periodic : Spline 1 :=
  pushControlPoint (point [# q 3 1])
    (setClamped false (Spline_of_points [point [# q 0 1]; point [# q 1 1]] 1)).

(** Two control points and degree 1 with five knots instead of four. *)
Definition mis_sized : Spline 1 :=
  Spline_of_knots [point [# q 0 1]; point [# q 1 1]]
    [q 0 1; q 0 1; q 1 1; q 1 1; q 1 1] 1.

(** Degree 3 with a single knot. *)
Definition short_knots : Spline 1 :=
  Spline_of_knots [point [# q 0 1]; point [# q 1 1]] [q 0 1] 3.

(** Custom knots [0, 1, 2, 3] for two control points of degree 1. *)
Definition custom : Spline 1 :=
  Spline_of_knots [point [# q 0 1]; point [# q 1 1]]
    [q 0 1; q 1 1; q 2 1; q 3 1] 1.

(** Degree 3: [setClamped(false)], four unit-weight control points 1, 2,
    5, 7 pushed, then [setClamped(true)].  The clamped flag is set, and
    the knots are those of the last push, [0, 1/7, ..., 1]. *)
Definition stale_clamped : Spline 1 :=
  setClamped true
    (pushControlPoint (point [# q 7 1])
       (pushControlPoint (point [# q 5 1])
          (pushControlPoint (point [# q 2 1])
             (pushControlPoint (point [# q 1 1])
                (setClamped false (Spline_new 3)))))).

End Examples.

(** ** Frenet.hpp *)

(** The three directions [v[ 0 ]], [v[ 1 ]], [v[ 2 ]] that
    [Frenet::operator()] builds from the first derivative [d] and the
    second derivative [a], before it normalizes them (the normalization
    takes a square root and is not part of this development). *)
Definition Frenet_axes (d a : Point 3) : Point 3 * Point 3 * Point 3 :=
  (d, cross3 d (cross3 a d), cross3 d a).

(** ** Sums and primitives, to state properties *)

Definition sum_list (l : list Real) : Real := foldr Qcplus 0 l.

Fixpoint pprimitive_from (k : Z) (c : list Real) : list Real :=
  match c with
  | [] => []
  | ck :: c' => ck / Real_of_int k :: pprimitive_from (k + 1) c'
  end.

(** The primitive of a polynomial that vanishes at 0. *)
Definition pprimitive (c : list Real) : list Real := 0 :: pprimitive_from 1 c.

(** Two outcomes are alike: the same error, or values related by [R]. *)
Definition rel_result {A B : Type} (R : A → B → Prop) (x : result A)
    (y : result B) : Prop :=
  match x, y with
  | Ok a, Ok b => R a b
  | Err e, Err e' => e = e'
  | _, _ => False
  end.

(** A two-dimensional array of [p + 1] rows of [p + 1] cells. *)
Definition square (p : Z) (m : list (list Real)) : Prop :=
  length m = Z.to_nat (p + 1)
  ∧ Forall (λ row, length row = Z.to_nat (p + 1)) m.

(** The states of the inner loops of [dersBasisFuns] and of [basisFuns]
    at step [r] of the turn [j]: columns [j] and [j - 1] of the upper
    triangle of [ndu] hold the new and the old values of [N_]. *)
Definition ndu_inner_rel (p j r : Z) (st : list (list Real) * Real)
    (st' : list Real * Real) : Prop :=
  st.2 = st'.2 ∧ square p st.1 ∧ Z.of_nat (length st'.1) = (p + 1)%Z
  ∧ (∀ k, (0 ≤ k < r)%Z → rd2 st.1 k j = rd st'.1 k)
  ∧ (∀ k, (r ≤ k ≤ j - 1)%Z → rd2 st.1 k (j - 1) = rd st'.1 k).

(** The states of the outer loops at turn [j]: column [j - 1] of [ndu]
    holds [N_]. *)
Definition ndu_outer_rel (p j : Z)
    (st : list (list Real) * list Real * list Real)
    (st' : list Real * list Real * list Real) : Prop :=
  st.1.2 = st'.1.2 ∧ st.2 = st'.2
  ∧ square p st.1.1 ∧ Z.of_nat (length st'.1.1) = (p + 1)%Z
  ∧ ∀ k, (0 ≤ k ≤ j - 1)%Z → rd2 st.1.1 k (j - 1) = rd st'.1.1 k.

(** ** Checkers, to establish the notions above on a given configuration *)

Fixpoint sortedb (U : list Real) : bool :=
  match U with
  | x :: U' =>
      match U' with
      | y :: _ => bool_decide (x ≤ y) && sortedb U'
      | [] => true
      end
  | [] => true
  end.

Definition validb {N : nat} (s : Spline N) : bool :=
  bool_decide (0 ≤ getDegree s)%Z
  && bool_decide (getDegree s + 1 ≤ Z.of_nat (length (controlPoints s)))%Z
  && bool_decide (Z.of_nat (length (knotVector s))
                  = (Z.of_nat (length (controlPoints s)) + getDegree s + 1)%Z)
  && sortedb (knotVector s)
  && forallb (λ P, bool_decide (weight P ≠ 0)) (controlPoints s).

(** * Properties *)

(** ** Arithmetic on [Qc] through [Q] *)

Lemma Qc_eq_Qeq (x y : Qc) : x = y ↔ (this x == this y)%Q.
Proof. split; [intros ->; reflexivity | apply Qc_is_canon]. Qed.

Ltac qc_revert :=
  repeat match goal with
  | H : Qcle _ _ ∧ _ |- _ => generalize (proj1 H) (proj2 H); clear H; intros ? ?
  | H : Qclt _ _ ∧ _ |- _ => generalize (proj1 H) (proj2 H); clear H; intros ? ?
  | H : @eq Qc _ _ |- _ => apply Qc_eq_Qeq in H; revert H
  | H : not (@eq Qc _ _) |- _ => rewrite Qc_eq_Qeq in H; revert H
  | H : Qcle _ _ |- _ => revert H
  | H : Qclt _ _ |- _ => revert H
  | H : not (Qcle _ _) |- _ => revert H
  | H : not (Qclt _ _) |- _ => revert H
  end.

Ltac qc_push :=
  intros; qc_revert; rewrite ?Qc_eq_Qeq;
  unfold Real_of_int, Qcle, Qclt, Qcminus, Qcdiv; simpl; rewrite ?Qred_correct.

Ltac qc_lra := qc_push; lra.

(** Closed decidable statements, by evaluation. *)
Ltac by_computation := apply (bool_decide_eq_true_1 _); vm_compute; reflexivity.

Lemma Real_of_int_nonzero (z : Z) : z ≠ 0%Z → Real_of_int z ≠ 0.
Proof.
  intros Hz. rewrite Qc_eq_Qeq. unfold Real_of_int. simpl.
  rewrite Qred_correct. unfold Qeq. simpl. lia.
Qed.

(** [int_wrap] leaves a value of the 32-bit range as it is, and brings
    every value into the range. *)
Lemma int_wrap_small (z : Z) :
  (- 2 ^ 31 ≤ z < 2 ^ 31)%Z → int_wrap z = z.
Proof. intros Hz. unfold int_wrap. rewrite Z.mod_small; lia. Qed.

Lemma int_wrap_range (z : Z) : (- 2 ^ 31 ≤ int_wrap z < 2 ^ 31)%Z.
Proof.
  unfold int_wrap.
  pose proof (Z.mod_pos_bound (z + 2 ^ 31) (2 ^ 32) ltac:(lia)). lia.
Qed.

Lemma div_zero_l (x : Real) : 0 / x = 0.
Proof. unfold Qcdiv. ring. Qed.

Lemma half_sum (a : Real) : (a + a) / Real_of_int 2 = a.
Proof.
  replace (Real_of_int 2) with (1 + 1) by (apply Qc_is_canon; reflexivity).
  field. qc_lra.
Qed.

(** ** The adaptive Simpson integrator *)

Module SimpsonFacts.
Import Simpson.

(** [aux] satisfies the recursion equation of the source. *)
Lemma aux_unfold f a b eps S fa fb fc bottom :
  aux f a b eps S fa fb fc bottom =
    let r := refine f a b fa fb fc in
    if accept bottom eps S (S2 r) then S2 r + (S2 r - S) / Real_of_int 15
    else aux f a (c r) (eps / Real_of_int 2) (Sleft r) fa fc (fd r) (bottom - 1)
         + aux f (c r) b (eps / Real_of_int 2) (Sright r) fc fb (fe r) (bottom - 1).
Proof.
  unfold aux. cbv zeta.
  destruct (accept bottom eps S _) eqn:Hacc.
  - destruct (Z.to_nat bottom); cbn [aux_rec aux_shape_rec]; cbv zeta;
      rewrite Hacc; reflexivity.
  - assert (0 < bottom)%Z as Hpos.
    { unfold accept in Hacc. apply orb_false_iff in Hacc as [Hb _].
      apply bool_decide_eq_false in Hb. lia. }
    replace (Z.to_nat bottom) with (Datatypes.S (Z.to_nat (bottom - 1))) by lia.
    cbn [aux_rec aux_shape_rec]; cbv zeta. rewrite Hacc. reflexivity.
Qed.

Lemma aux_shape_unfold f a b eps S fa fb fc bottom :
  aux_shape f a b eps S fa fb fc bottom =
    let r := refine f a b fa fb fc in
    if accept bottom eps S (S2 r) then mkShape 1 0
    else
      let sl := aux_shape f a (c r) (eps / Real_of_int 2) (Sleft r) fa fc (fd r)
                  (bottom - 1) in
      let sr := aux_shape f (c r) b (eps / Real_of_int 2) (Sright r) fc fb (fe r)
                  (bottom - 1) in
      mkShape (leaves sl + leaves sr) (1 + Nat.max (depth sl) (depth sr)).
Proof.
  unfold aux_shape. cbv zeta.
  destruct (accept bottom eps S _) eqn:Hacc.
  - destruct (Z.to_nat bottom); cbn [aux_rec aux_shape_rec]; cbv zeta;
      rewrite Hacc; reflexivity.
  - assert (0 < bottom)%Z as Hpos.
    { unfold accept in Hacc. apply orb_false_iff in Hacc as [Hb _].
      apply bool_decide_eq_false in Hb. lia. }
    replace (Z.to_nat bottom) with (Datatypes.S (Z.to_nat (bottom - 1))) by lia.
    cbn [aux_rec aux_shape_rec]; cbv zeta. rewrite Hacc. reflexivity.
Qed.

(** The recursion of [aux] is at most [bottom] deep and has at most
    [2 ^ bottom] leaves. *)
Lemma aux_shape_rec_bound k f a b eps S fa fb fc bottom :
  k = Z.to_nat bottom →
  (depth (aux_shape_rec k f a b eps S fa fb fc bottom) ≤ k)%nat
  ∧ (1 ≤ leaves (aux_shape_rec k f a b eps S fa fb fc bottom))%nat
  ∧ (leaves (aux_shape_rec k f a b eps S fa fb fc bottom) ≤ 2 ^ k)%nat.
Proof.
  revert a b eps S fa fb fc bottom.
  induction k as [|k IH]; intros a b eps S fa fb fc bottom Hk;
    cbn [aux_shape_rec]; cbv zeta.
  - destruct (accept _ _ _ _); simpl; lia.
  - assert (2 ^ k ≠ 0)%nat as Hpow by (apply Nat.pow_nonzero; lia).
    rewrite Nat.pow_succ_r'.
    destruct (accept _ _ _ _); cbn [leaves depth]; [lia|].
    set (r := refine f a b fa fb fc).
    destruct (IH a (c r) (eps / Real_of_int 2) (Sleft r) fa fc (fd r)
                (bottom - 1)%Z ltac:(lia)) as (Hd1 & Hl1 & Hu1).
    destruct (IH (c r) b (eps / Real_of_int 2) (Sright r) fc fb (fe r)
                (bottom - 1)%Z ltac:(lia)) as (Hd2 & Hl2 & Hu2).
    lia.
Qed.

(** On an interval of width zero every activation of [aux] returns 0. *)
Lemma aux_rec_zero_width k f a eps fa fb fc bottom :
  aux_rec k f a a eps 0 fa fb fc bottom = 0.
Proof.
  revert eps fa fb fc bottom.
  induction k as [|k IH]; intros eps fa fb fc bottom;
    cbn [aux_rec]; cbv zeta.
  - assert (S2 (refine f a a fa fb fc) = 0) as ->.
    { unfold refine; simpl. unfold Qcdiv. ring. }
    destruct (accept _ _ _ _); unfold Qcdiv; ring.
  - assert (S2 (refine f a a fa fb fc) = 0) as ->.
    { unfold refine; simpl. unfold Qcdiv. ring. }
    assert (c (refine f a a fa fb fc) = a) as -> by apply half_sum.
    assert (Sleft (refine f a a fa fb fc) = 0) as ->.
    { unfold refine; simpl. unfold Qcdiv. ring. }
    assert (Sright (refine f a a fa fb fc) = 0) as ->.
    { unfold refine; simpl. unfold Qcdiv. ring. }
    destruct (accept _ _ _ _); [unfold Qcdiv; ring|].
    rewrite !IH. ring.
Qed.

(** With enough fuel for [bottom] nested activations, [aux_run] returns,
    and what it returns is given by [aux] and [aux_shape]. *)
Lemma aux_run_total fuel f a b eps S fa fb fc bottom :
  (Z.to_nat bottom < fuel)%nat →
  aux_run fuel f a b eps S fa fb fc bottom
  = Ok (aux f a b eps S fa fb fc bottom, aux_shape f a b eps S fa fb fc bottom).
Proof.
  revert a b eps S fa fb fc bottom.
  induction fuel as [|fuel IH]; intros a b eps S fa fb fc bottom Hfuel; [lia|].
  cbn [aux_run]. cbv zeta. rewrite aux_unfold, aux_shape_unfold. cbv zeta.
  destruct (accept bottom eps S _) eqn:Hacc; [done|].
  assert (0 < bottom)%Z as Hpos.
  { unfold accept in Hacc. apply orb_false_iff in Hacc as [Hb _].
    apply bool_decide_eq_false in Hb. lia. }
  rewrite !IH by lia. reflexivity.
Qed.

(** Without the fuel for it, an activation that has to recurse does not
    return. *)
Lemma aux_run_out_of_fuel f a b eps S fa fb fc bottom :
  accept bottom eps S (S2 (refine f a b fa fb fc)) = false →
  aux_run 1 f a b eps S fa fb fc bottom = Err OutOfFuel.
Proof. intros Hacc. cbn [aux_run]. cbv zeta. by rewrite Hacc. Qed.

Lemma integrate_run_total fuel I f a b :
  (Z.to_nat (getMaxRecursionDepth I) < fuel)%nat →
  integrate_run fuel I f a b = Ok (integrate I f a b, integrate_shape I f a b).
Proof. intros Hfuel. unfold integrate_run. by rewrite aux_run_total. Qed.

(** On an interval of width zero, with a negative accuracy, the test on
    the estimates fails in every activation: the recursion is the full
    binary tree of depth [bottom]. *)
Lemma aux_shape_rec_zero_width k f a eps fa fb fc bottom :
  eps < 0 → k = Z.to_nat bottom →
  aux_shape_rec k f a a eps 0 fa fb fc bottom = mkShape (2 ^ k) k.
Proof.
  revert eps fa fb fc bottom.
  induction k as [|k IH]; intros eps fa fb fc bottom Heps Hk;
    cbn [aux_shape_rec]; cbv zeta.
  - unfold accept. by rewrite (bool_decide_eq_true_2 (bottom ≤ 0)%Z) by lia.
  - assert (S2 (refine f a a fa fb fc) = 0) as ->.
    { unfold refine; simpl. unfold Qcdiv. ring. }
    assert (c (refine f a a fa fb fc) = a) as -> by apply half_sum.
    assert (Sleft (refine f a a fa fb fc) = 0) as ->.
    { unfold refine; simpl. unfold Qcdiv. ring. }
    assert (Sright (refine f a a fa fb fc) = 0) as ->.
    { unfold refine; simpl. unfold Qcdiv. ring. }
    assert (accept bottom eps 0 0 = false) as ->.
    { unfold accept. rewrite (bool_decide_eq_false_2 (bottom ≤ 0)%Z) by lia.
      rewrite bool_decide_eq_false_2; [done|].
      replace (0 - 0) with (Q2Qc 0) by ring. unfold fabs.
      replace (Qcabs 0) with (Q2Qc 0) by (apply Qc_is_canon; reflexivity).
      intros H. revert H Heps. qc_push. unfold inject_Z. lra. }
    assert (eps / Real_of_int 2 < 0) as Heps2.
    { assert (eps = eps / Real_of_int 2 + eps / Real_of_int 2) as Hhalf.
      { replace (Real_of_int 2) with (1 + 1) by by_computation.
        field. intros H; qc_lra. }
      revert Hhalf Heps. generalize (eps / Real_of_int 2). intros x -> Hx.
      qc_lra. }
    rewrite !IH by (done || lia). cbn [leaves depth].
    f_equal; [rewrite Nat.pow_succ_r'|]; lia.
Qed.

(** When the accuracy is not negative, the test on the estimates holds
    in the first activation on an interval of width zero. *)
Lemma aux_shape_zero_width f a eps fa fb fc bottom :
  0 ≤ eps → aux_shape f a a eps 0 fa fb fc bottom = mkShape 1 0.
Proof.
  intros Heps. rewrite aux_shape_unfold. cbv zeta.
  assert (S2 (refine f a a fa fb fc) = 0) as ->.
  { unfold refine; simpl. unfold Qcdiv. ring. }
  unfold accept.
  rewrite (bool_decide_eq_true_2 (fabs (0 - 0) ≤ _)); [by rewrite orb_true_r|].
  replace (0 - 0) with (Q2Qc 0) by ring.
  unfold fabs.
  replace (Qcabs 0) with (Q2Qc 0) by (apply Qc_is_canon; reflexivity).
  qc_push. unfold inject_Z. lra.
Qed.

(** C10 (as amended). Integrating over an interval of width zero
    terminates and returns exactly 0, for every integrand with values in
    the rationals, every accuracy and every depth budget.  When the
    accuracy is not negative, the acceptance test succeeds in the first
    activation of [aux] and there is no recursion.  When the accuracy is
    negative, the test on the estimates fails in every activation
    ([0 <= 15 eps] is false) and [aux] recurses down to the depth budget:
    [2 ^ maxDepth] activations return, at depth [maxDepth], and their
    values still sum to 0. *)
Theorem integrate_zero_width (I : Simpson) (f : Real → Real) (a : Real)
    (fuel : nat) :
  (Z.to_nat (getMaxRecursionDepth I) < fuel)%nat →
  ∃ sh,
    integrate_run fuel I f a a = Ok (0, sh)
    ∧ (0 ≤ getAccuracy I → sh = mkShape 1 0)
    ∧ (getAccuracy I < 0 →
       sh = mkShape (2 ^ Z.to_nat (getMaxRecursionDepth I))
              (Z.to_nat (getMaxRecursionDepth I))).
Proof.
  intros Hfuel. exists (integrate_shape I f a a).
  assert ((a - a) / Real_of_int 6
          * (f a + Real_of_int 4 * f ((a + a) / Real_of_int 2) + f a)
          = Q2Qc 0) as Hzero by (unfold Qcdiv; ring).
  split_and!.
  - rewrite integrate_run_total by done. do 2 f_equal.
    unfold integrate, aux. rewrite Hzero. apply aux_rec_zero_width.
  - intros Heps. unfold integrate_shape. rewrite Hzero.
    by apply aux_shape_zero_width.
  - intros Heps. unfold integrate_shape, aux_shape. rewrite Hzero.
    by apply aux_shape_rec_zero_width.
Qed.

(** C10, as stated, fails: with the accuracy -1 and the depth budget 5,
    integrating [x * x] over [[1, 1]] returns 0 after a recursion of
    depth 5 with 32 activations that return, not in the first
    activation. *)
Lemma integrate_zero_width_counterexample :
  integrate_run 6 (mk (- (1)) 5) (λ x, x * x) 1 1 = Ok (0, mkShape 32 5)
  ∧ integrate_run 1 (mk (- (1)) 5) (λ x, x * x) 1 1 = Err OutOfFuel.
Proof. split; by_computation. Qed.

(** C4. Adaptive Simpson integration terminates within its depth budget,
    for every integrand, interval, accuracy and maximum depth: as soon as
    [maxDepth + 1] nested activations of [aux] are allowed (the first one
    and [maxDepth] below it; one when [maxDepth] is negative),
    [operator()] returns an estimate; the recursion is never deeper than
    [maxDepth], at most [2 ^ maxDepth] activations return without
    recursing, and an activation whose budget is exhausted returns the
    extrapolated estimate [S2 + (S2 - S) / 15] without recursing, whatever
    the accuracy asked for. *)
Theorem integrate_bounded (I : Simpson) (f : Real → Real) (a b : Real)
    (fuel : nat) :
  (Z.to_nat (getMaxRecursionDepth I) < fuel)%nat →
  ∃ v sh,
    integrate_run fuel I f a b = Ok (v, sh)
    ∧ v = integrate I f a b
    ∧ (depth sh ≤ Z.to_nat (getMaxRecursionDepth I))%nat
    ∧ (leaves sh ≤ 2 ^ Z.to_nat (getMaxRecursionDepth I))%nat
    ∧ (∀ eps S fa fb fc bottom, (bottom ≤ 0)%Z →
         aux_run fuel f a b eps S fa fb fc bottom
         = Ok (S2 (refine f a b fa fb fc)
               + (S2 (refine f a b fa fb fc) - S) / Real_of_int 15,
               mkShape 1 0)).
Proof.
  intros Hfuel. exists (integrate I f a b), (integrate_shape I f a b).
  split_and!.
  - by apply integrate_run_total.
  - done.
  - unfold integrate_shape, aux_shape. by apply aux_shape_rec_bound.
  - unfold integrate_shape, aux_shape. by apply aux_shape_rec_bound.
  - intros eps S fa fb fc bottom Hb.
    destruct fuel as [|fuel]; [lia|]. cbn [aux_run]. cbv zeta.
    unfold accept. by rewrite bool_decide_eq_true_2.
Qed.

Lemma integrate_bounded_witness :
  ∃ v sh,
    integrate_run 6 default (λ x, x * x * x * x) 0 1 = Ok (v, sh)
    ∧ (depth sh ≤ 5)%nat ∧ (leaves sh ≤ 32)%nat.
Proof.
  destruct (integrate_bounded default (λ x, x * x * x * x) 0 1 6)
    as (v & sh & Hrun & _ & Hdepth & Hleaves & _).
  - simpl. lia.
  - exists v, sh. split_and!; [exact Hrun | exact Hdepth | exact Hleaves].
Defined.

Lemma integrate_zero_width_witness :
  ∃ sh, integrate_run 6 default (λ x, x * x) 1 1 = Ok (0, sh)
        ∧ sh = mkShape 1 0.
Proof.
  destruct (integrate_zero_width default (λ x, x * x) 1 6)
    as (sh & Hrun & Hpos & _).
  - simpl. lia.
  - exists sh. split; [exact Hrun|]. apply Hpos.
    unfold Qcle, Qle. simpl. lia.
Defined.

End SimpsonFacts.

(** ** Outcomes and loops *)

Lemma bind_Ok_inv {A B : Type} (c : result A) (k : A → result B) (b : B) :
  c ≫= k = Ok b → ∃ a, c = Ok a ∧ k a = Ok b.
Proof. destruct c as [a|e]; simpl; [eauto | discriminate]. Qed.

Lemma Ok_bind {A B : Type} (a : A) (k : A → result B) : Ok a ≫= k = k a.
Proof. reflexivity. Qed.

Tactic Notation "inv_bind" hyp(H) "as" ident(a) ident(Ha) :=
  apply bind_Ok_inv in H as (a & Ha & H).

(** An invariant of the state is kept by a [for] loop that completes. *)
Lemma for_up_inv {St : Type} (I : St → Prop) (body : Z → St → result St)
    (lo : Z) (count : nat) (s s' : St) :
  (∀ i x x', I x → body i x = Ok x' → I x') →
  I s → for_up body lo count s = Ok s' → I s'.
Proof.
  intros Hbody. revert lo s.
  induction count as [|count IH]; intros lo s Hs Hrun; simpl in Hrun.
  - congruence.
  - inv_bind Hrun as x Hx. eauto.
Qed.

(** A [for] loop whose body succeeds on every state satisfying the
    invariant of its index completes. *)
Lemma for_up_ind {St : Type} (I : Z → St → Prop) (body : Z → St → result St)
    (lo : Z) (count : nat) (s : St) :
  (∀ i x, (lo ≤ i < lo + Z.of_nat count)%Z → I i x →
          ∃ x', body i x = Ok x' ∧ I (i + 1)%Z x') →
  I lo s →
  ∃ s', for_up body lo count s = Ok s' ∧ I (lo + Z.of_nat count)%Z s'.
Proof.
  revert lo s.
  induction count as [|count IH]; intros lo s Hbody Hs; simpl.
  - exists s. split; [done|]. by replace (lo + Z.of_nat 0)%Z with lo by lia.
  - destruct (Hbody lo s ltac:(lia) Hs) as (x' & -> & Hx'). simpl.
    destruct (IH (lo + 1)%Z x') as (s' & Hrun & Hs'); [|done|].
    { intros i x Hi. apply Hbody. lia. }
    exists s'. split; [done|].
    by replace (lo + Z.of_nat (S count))%Z with (lo + 1 + Z.of_nat count)%Z by lia.
Qed.

(** ** Weights of vectors *)

Section Weights.
Context {N : nat}.
Implicit Types a b P : Point N.

Lemma weight_origin : weight (@origin N) = 1.
Proof. reflexivity. Qed.

Lemma weight_add a b : weight (add a b) = 1.
Proof. reflexivity. Qed.

Lemma weight_scale a r : weight (scale a r) = 1.
Proof. reflexivity. Qed.

Lemma weight_div a r P : div a r = Ok P → weight P = 1.
Proof. unfold div. destruct (decide _); [discriminate|]. by intros [= <-]. Qed.

Lemma weight_add_assign a b : weight (add_assign a b) = weight a.
Proof. reflexivity. Qed.

Lemma index_elem_of {A : Type} (l : list A) (i : Z) (x : A) :
  index l i = Ok x → l !! Z.to_nat i = Some x.
Proof.
  unfold index. destruct (decide _); [|discriminate].
  destruct (l !! Z.to_nat i); [by intros [= ->] | discriminate].
Qed.

Lemma curveDerivs_body_weights p span (Pw : list (Point N)) nders k j CK CK' :
  Forall (λ P, weight P = 1) CK →
  curveDerivs_body p span Pw nders k j CK = Ok CK' →
  Forall (λ P, weight P = 1) CK'.
Proof.
  intros HCK Hrun. unfold curveDerivs_body in Hrun. inv_bind Hrun as Pj HPj.
  injection Hrun as <-.
  destruct (CK !! Z.to_nat k) as [P|] eqn:Hk.
  - apply Forall_insert; [done|].
    rewrite weight_add_assign, (list_lookup_total_correct _ _ _ Hk).
    by eapply (proj1 (Forall_lookup _ _) HCK).
  - rewrite list_insert_ge; [done|]. by apply lookup_ge_None.
Qed.

Lemma position_weight fuel (s : Spline N) t P :
  position fuel s t = Ok P → weight P = 1.
Proof.
  unfold position, curvePoint. intros H. inv_bind H as u Hu.
  destruct (decide _); [discriminate|].
  inv_bind H as span Hspan. inv_bind H as N_ HN. inv_bind H as Cw HCw.
  by eapply weight_div.
Qed.

Lemma derivative_weight fuel (s : Spline N) t d P :
  derivative fuel s t d = Ok P → weight P = 1.
Proof.
  unfold derivative, curveDerivs. intros H.
  destruct (decide _); [discriminate|].
  inv_bind H as u Hu. inv_bind H as CK HCK.
  destruct (decide _); [discriminate|].
  inv_bind HCK as span Hspan. inv_bind HCK as nders Hnders.
  apply index_elem_of in H.
  assert (Forall (λ P, weight P = 1) CK) as HF.
  { unfold for_to in HCK. eapply for_up_inv; [| |exact HCK].
    - intros k CK1 CK2 H1 H2. unfold for_to in H2.
      eapply for_up_inv; [| |exact H2]; [|done].
      intros j ???. by apply curveDerivs_body_weights.
    - apply Forall_forall. intros ? [-> _]%elem_of_replicate. done. }
  by eapply (proj1 (Forall_lookup _ _) HF).
Qed.
End Weights.

(** C9. Every point returned by [position] or [derivative] has weight 1,
    whatever the configuration and the parameter: the sum, the product by
    a scalar and the quotient by a scalar are built on the default
    constructor, whose weight is 1, so the weights of the control points
    never reach the result. *)
Theorem evaluation_weight_one {N : nat} (fuel : nat) (s : Spline N) (t : Real) :
  (∀ P, position fuel s t = Ok P → weight P = 1)
  ∧ (∀ d P, derivative fuel s t d = Ok P → weight P = 1)
  ∧ (∀ a b : Point N, weight (add a b) = 1)
  ∧ (∀ (a : Point N) r, weight (scale a r) = 1)
  ∧ (∀ (a : Point N) r P, div a r = Ok P → weight P = 1).
Proof.
  split_and!; eauto using position_weight, derivative_weight, weight_div.
Qed.

Lemma evaluation_weight_one_witness :
  position 4 Examples.weighted_segment (Examples.q 1 2)
    = Ok (point [# Examples.q 1 1])
  ∧ weight (point [# Examples.q 1 1] : Point 1) = 1.
Proof.
  assert (position 4 Examples.weighted_segment (Examples.q 1 2)
          = Ok (point [# Examples.q 1 1])) as H.
  { apply (bool_decide_eq_true_1 _). vm_compute. reflexivity. }
  split; [exact H|].
  exact (proj1 (evaluation_weight_one 4 Examples.weighted_segment
                  (Examples.q 1 2)) _ H).
Defined.

(** ** Setters of the spline *)




(** ** Span search *)

Lemma at_Ok_lookup {A : Type} (U : list A) (i : Z) (x : A) :
  at_ U i = Ok x ↔ (0 ≤ i)%Z ∧ U !! Z.to_nat i = Some x.
Proof.
  unfold at_. destruct (decide _) as [Hi|Hi].
  - destruct (U !! Z.to_nat i); split.
    + by intros [= ->].
    + by intros [_ [= ->]].
    + discriminate.
    + by intros [_ ?].
  - split; [discriminate | by intros [? _]].
Qed.

Lemma at_in_range {A : Type} (U : list A) (i : Z) :
  (0 ≤ i < Z.of_nat (length U))%Z → ∃ x, at_ U i = Ok x.
Proof.
  intros Hi. destruct (lookup_lt_is_Some_2 U (Z.to_nat i)) as [x Hx]; [lia|].
  exists x. apply at_Ok_lookup. split; [lia | done].
Qed.

Lemma at_out_of_range {A : Type} (U : list A) (i : Z) :
  (Z.of_nat (length U) ≤ i)%Z → at_ U i = Err OutOfRange.
Proof.
  intros Hi. unfold at_. destruct (decide _); [|done].
  rewrite (proj2 (lookup_ge_None U (Z.to_nat i))); [done | lia].
Qed.

Lemma nondecreasing_at (U : list Real) (i j : Z) (x y : Real) :
  nondecreasing U → (i ≤ j)%Z → at_ U i = Ok x → at_ U j = Ok y → x ≤ y.
Proof.
  intros HU Hij [Hi Hx]%at_Ok_lookup [Hj Hy]%at_Ok_lookup.
  eapply HU; [|exact Hx|exact Hy]. lia.
Qed.

(** The binary search: started on [low < high] with
    [U[low] ≤ u < U[high]], it returns, within [high - low] tests of the
    loop condition, a span in [[low, high)] whose knot interval holds
    [u]. *)
Lemma findSpan_while_spec (fuel : nat) (u : Real) (U : list Real) (low high : Z)
    (x y : Real) :
  (0 ≤ low < high)%Z → (high < Z.of_nat (length U))%Z →
  at_ U low = Ok x → x ≤ u → at_ U high = Ok y → u < y →
  (high - low ≤ Z.of_nat fuel)%Z →
  ∃ span x' y',
    findSpan_while fuel u U low high ((low + high) `quot` 2) = Ok span
    ∧ (low ≤ span < high)%Z
    ∧ at_ U span = Ok x' ∧ at_ U (span + 1) = Ok y' ∧ x' ≤ u < y'.
Proof.
  revert low high x y.
  induction fuel as [|fuel IH]; intros low high x y Hlh Hlen Hx Hxu Hy Huy Hfuel;
    [lia|].
  cbn [findSpan_while].
  set (mid := ((low + high) `quot` 2)%Z).
  assert (low ≤ mid < high)%Z as Hmid.
  { unfold mid. rewrite Z.quot_div_nonneg by lia.
    split; [apply Z.div_le_lower_bound | apply Z.div_lt_upper_bound]; lia. }
  destruct (at_in_range U mid) as [m Hm]; [lia|]. rewrite Hm. simpl.
  destruct (decide (u < m)) as [Hum|Hum].
  - assert (low < mid)%Z as Hlow.
    { destruct (decide (low = mid)) as [<-|]; [|lia].
      rewrite Hx in Hm. injection Hm as ->. qc_lra. }
    destruct (IH low mid x m) as (span & x' & y' & Hrun & Hspan & Hrest);
      try done; try lia.
    exists span, x', y'. split; [done|]. split; [lia | done].
  - destruct (at_in_range U (mid + 1)) as [m1 Hm1]; [lia|]. rewrite Hm1. simpl.
    destruct (decide (m1 ≤ u)) as [Hm1u|Hm1u].
    + assert (mid + 1 < high)%Z as Hhigh.
      { destruct (decide (mid + 1 = high)%Z) as [Heq|]; [|lia].
        rewrite Heq, Hy in Hm1. injection Hm1 as ->. qc_lra. }
      assert (low < mid)%Z as Hlow.
      { unfold mid in *. rewrite Z.quot_div_nonneg in * by lia.
        enough (low + 1 ≤ (low + high) `div` 2)%Z by lia.
        apply Z.div_le_lower_bound; lia. }
      destruct (IH mid high m y) as (span & x' & y' & Hrun & Hspan & Hrest);
        try done; try lia; [qc_lra|].
      exists span, x', y'. split; [done|]. split; [lia | done].
    + exists mid, m, m1. split_and!; first [done | lia | qc_lra].
Qed.


(** ** Wrapping of the parameter of a curve that is not clamped *)

Lemma Real_of_int_succ (n : nat) :
  Real_of_int (Z.of_nat (S n)) = Real_of_int (Z.of_nat n) + 1.
Proof.
  rewrite Nat2Z.inj_succ. unfold Z.succ. qc_push.
  rewrite inject_Z_plus. unfold inject_Z at 2. lra.
Qed.

(** Every rational is below a multiple of a positive one. *)
Lemma archimedean (x w : Real) :
  0 < w → ∃ n : nat, x ≤ Real_of_int (Z.of_nat n) * w.
Proof.
  intros Hw.
  exists (Z.to_nat (Qnum (this (x / w)))).
  replace x with (x / w * w) at 1 by (field; intros ->; qc_lra).
  apply Qcmult_le_compat_r; [|qc_lra].
  generalize (x / w). intros [[a b] Hc].
  unfold Real_of_int, Qcle. simpl. rewrite Qred_correct.
  unfold Qle, inject_Z. simpl. nia.
Qed.

Lemma wrap_up_mono (fuel fuel' : nat) (mn w u r : Real) :
  wrap_up fuel mn w u = Ok r → (fuel ≤ fuel')%nat → wrap_up fuel' mn w u = Ok r.
Proof.
  revert fuel' u. induction fuel as [|fuel IH]; intros fuel' u; [discriminate|].
  intros H Hle. destruct fuel' as [|fuel']; [lia|]. simpl in *.
  destruct (decide _); [|done]. apply IH; [done | lia].
Qed.

Lemma wrap_down_mono (fuel fuel' : nat) (mx w u r : Real) :
  wrap_down fuel mx w u = Ok r → (fuel ≤ fuel')%nat → wrap_down fuel' mx w u = Ok r.
Proof.
  revert fuel' u. induction fuel as [|fuel IH]; intros fuel' u; [discriminate|].
  intros H Hle. destruct fuel' as [|fuel']; [lia|]. simpl in *.
  destruct (decide _); [|done]. apply IH; [done | lia].
Qed.

(** The first loop ends after at most [n] additions when
    [minKnot - u ≤ n * total]. *)
Lemma wrap_up_steps (n : nat) (mn w u : Real) :
  0 < w → mn - u ≤ Real_of_int (Z.of_nat n) * w →
  ∃ r, wrap_up (S n) mn w u = Ok r ∧ mn ≤ r.
Proof.
  intros Hw. revert u. induction n as [|n IH]; intros u Hu.
  - exists u. simpl. destruct (decide (u < mn)) as [Hlt|Hge].
    + exfalso. revert Hu. change (Real_of_int (Z.of_nat 0)) with (Q2Qc 0). qc_lra.
    + split; [done | qc_lra].
  - cbn [wrap_up]. destruct (decide (u < mn)) as [Hlt|Hge].
    + apply IH. rewrite Real_of_int_succ in Hu. qc_push. lra.
    + exists u. split; [done | qc_lra].
Qed.

(** The second loop, started above [maxKnot - total], ends after at most
    [n] subtractions when [u - maxKnot < n * total], in
    [[maxKnot - total, maxKnot)]. *)
Lemma wrap_down_steps (n : nat) (mx w u : Real) :
  0 < w → mx - w ≤ u → u - mx ≤ Real_of_int (Z.of_nat n) * w →
  ∃ r, wrap_down (S (S n)) mx w u = Ok r ∧ mx - w ≤ r < mx.
Proof.
  intros Hw. revert u. induction n as [|n IH]; intros u Hlo Hu.
  - change (Real_of_int (Z.of_nat 0)) with (Q2Qc 0) in Hu.
    destruct (decide (mx ≤ u)) as [Hge|Hlt].
    + exists (u - w). simpl.
      rewrite decide_True by done. rewrite decide_False by qc_lra.
      split; [done|]. split; qc_lra.
    + exists u. simpl. rewrite decide_False by done.
      split; [done|]. split; qc_lra.
  - cbn [wrap_down]. destruct (decide (mx ≤ u)) as [Hge|Hlt].
    + apply IH; [qc_lra|]. rewrite Real_of_int_succ in Hu. qc_push. lra.
    + exists u. split; [done|]. split; qc_lra.
Qed.

Lemma Real_of_int_add (x y : Z) :
  Real_of_int (x + y) = Real_of_int x + Real_of_int y.
Proof. qc_push. by rewrite inject_Z_plus. Qed.

Lemma Real_of_int_opp (x : Z) : Real_of_int (- x) = - Real_of_int x.
Proof. qc_push. by rewrite inject_Z_opp. Qed.

(** The loops move the parameter by a whole number of widths. *)
Lemma wrap_up_congruent (fuel : nat) (mn w u r : Real) :
  wrap_up fuel mn w u = Ok r → ∃ k : Z, (0 ≤ k)%Z ∧ r = u + Real_of_int k * w.
Proof.
  revert u. induction fuel as [|fuel IH]; intros u H; [discriminate|].
  cbn [wrap_up] in H. destruct (decide (u < mn)).
  - destruct (IH _ H) as (k & Hk & ->). exists (k + 1)%Z. split; [lia|].
    rewrite Real_of_int_add. replace (Real_of_int 1) with 1 by by_computation.
    ring.
  - injection H as <-. exists 0%Z. split; [lia|].
    replace (Real_of_int 0) with 0 by by_computation. ring.
Qed.

Lemma wrap_down_congruent (fuel : nat) (mx w u r : Real) :
  wrap_down fuel mx w u = Ok r → ∃ k : Z, (k ≤ 0)%Z ∧ r = u + Real_of_int k * w.
Proof.
  revert u. induction fuel as [|fuel IH]; intros u H; [discriminate|].
  cbn [wrap_down] in H. destruct (decide (mx ≤ u)).
  - destruct (IH _ H) as (k & Hk & ->). exists (k + - (1))%Z. split; [lia|].
    rewrite Real_of_int_add, Real_of_int_opp.
    replace (Real_of_int 1) with 1 by by_computation. ring.
  - injection H as <-. exists 0%Z. split; [lia|].
    replace (Real_of_int 0) with 0 by by_computation. ring.
Qed.

Section Periodic.
Context {N : nat} (s : Spline N) (mn mx : Real).
Hypothesis Hclamped : isClamped s = false.
Hypothesis Hfront : front (knotVector s) = Ok mn.
Hypothesis Hback : back (knotVector s) = Ok mx.
Hypothesis Hwidth : mn < mx.

Lemma fabs_width : fabs (mx - mn) = mx - mn.
Proof. apply Qcabs_pos. qc_lra. Qed.

Lemma adjustParameter_unfold fuel u :
  adjustParameter fuel s u =
    wrap_up fuel mn (mx - mn) u ≫= wrap_down fuel mx (mx - mn).
Proof.
  unfold adjustParameter. rewrite Hfront, Hback, Hclamped. simpl.
  by rewrite fabs_width.
Qed.

Lemma adjustParameter_mono fuel fuel' u r :
  adjustParameter fuel s u = Ok r → (fuel ≤ fuel')%nat →
  adjustParameter fuel' s u = Ok r.
Proof.
  rewrite !adjustParameter_unfold. intros H Hle. inv_bind H as u1 Hu1.
  rewrite (wrap_up_mono _ _ _ _ _ _ Hu1 Hle), Ok_bind.
  by eapply wrap_down_mono.
Qed.

(** The loops end, on a parameter in [[minKnot, maxKnot)]. *)
Lemma adjustParameter_terminates u :
  ∃ fuel r, adjustParameter fuel s u = Ok r ∧ mn ≤ r < mx.
Proof.
  assert (0 < mx - mn) as Hw by qc_lra.
  destruct (archimedean (mn - u) (mx - mn) Hw) as [n1 Hn1].
  destruct (wrap_up_steps n1 mn (mx - mn) u Hw Hn1) as (u1 & Hu1 & Hmn).
  destruct (archimedean (u1 - mx) (mx - mn) Hw) as [n2 Hn2].
  destruct (wrap_down_steps n2 mx (mx - mn) u1 Hw) as (r & Hr & Hrange);
    [qc_lra | done |].
  exists (S n1 + S (S n2))%nat, r. split.
  - rewrite adjustParameter_unfold.
    rewrite (wrap_up_mono _ (S n1 + S (S n2)) _ _ _ _ Hu1) by lia.
    rewrite Ok_bind.
    apply (wrap_down_mono _ _ _ _ _ _ Hr). lia.
  - split; qc_lra.
Qed.

(** Adding the width of the domain costs one more turn of a loop and
    gives the same adjusted parameter. *)
Lemma adjustParameter_shift fuel u r :
  adjustParameter fuel s u = Ok r →
  adjustParameter (S fuel) s (u + (mx - mn)) = Ok r.
Proof.
  rewrite !adjustParameter_unfold. intros H. inv_bind H as u1 Hu1.
  destruct fuel as [|fuel]; [discriminate|].
  cbn [wrap_up] in Hu1. destruct (decide (u < mn)) as [Hlt|Hge].
  - rewrite (wrap_up_mono _ (S (S fuel)) _ _ _ _ Hu1) by lia. rewrite Ok_bind.
    apply (wrap_down_mono _ _ _ _ _ _ H). lia.
  - injection Hu1 as <-.
    assert (wrap_up (S (S fuel)) mn (mx - mn) (u + (mx - mn))
            = Ok (u + (mx - mn))) as ->.
    { cbn [wrap_up]. rewrite decide_False; [done | qc_lra]. }
    rewrite Ok_bind. cbn [wrap_down]. rewrite decide_True by qc_lra.
    replace (u + (mx - mn) - (mx - mn)) with u by ring. exact H.
Qed.

(** The adjusted parameter differs from the parameter by a whole number
    of widths of the domain. *)
Lemma adjustParameter_congruent fuel u r :
  adjustParameter fuel s u = Ok r →
  ∃ k : Z, r = u + Real_of_int k * (mx - mn).
Proof.
  rewrite adjustParameter_unfold. intros H. inv_bind H as u1 Hu1.
  apply wrap_up_congruent in Hu1 as (k1 & _ & ->).
  apply wrap_down_congruent in H as (k2 & _ & ->).
  exists (k1 + k2)%Z. rewrite Real_of_int_add. ring.
Qed.

End Periodic.

(** C6. A curve that is not clamped and whose domain has positive width
    is periodic: [position(u + domainWidth)] equals [position(u)] for
    every [u].  [adjustParameter] terminates on both parameters and wraps
    both to the same representative [u'] of [[minKnot, maxKnot)], which
    differs from [u] by a whole number of widths of the domain, and both
    positions are the curve point at [u']. *)
Theorem position_periodic {N : nat} (s : Spline N) (minKnot maxKnot u : Real) :
  isClamped s = false →
  front (knotVector s) = Ok minKnot →
  back (knotVector s) = Ok maxKnot →
  minKnot < maxKnot →
  ∃ (fuel0 : nat) (u' : Real) (k : Z),
    u' = u + Real_of_int k * (maxKnot - minKnot)
    ∧ minKnot ≤ u' < maxKnot
    ∧ ∀ fuel, (fuel0 ≤ fuel)%nat →
        adjustParameter fuel s u = Ok u'
        ∧ adjustParameter fuel s (u + (maxKnot - minKnot)) = Ok u'
        ∧ position fuel s u
          = curvePoint fuel (Z.of_nat (length (controlPoints s)) - 1)
              (getDegree s) (knotVector s) (controlPoints s) u'
        ∧ position fuel s (u + (maxKnot - minKnot)) = position fuel s u.
Proof.
  intros Hclamped Hfront Hback Hwidth.
  destruct (adjustParameter_terminates s minKnot maxKnot Hclamped Hfront Hback
              Hwidth u) as (fuel0 & u' & Hadj & Hrange).
  destruct (adjustParameter_congruent s minKnot maxKnot Hclamped Hfront Hback
              Hwidth _ _ _ Hadj) as [k Hk].
  exists (S fuel0), u', k. split_and!; [done | apply Hrange | apply Hrange|].
  intros fuel Hfuel.
  assert (adjustParameter fuel s u = Ok u') as H1.
  { apply (adjustParameter_mono s minKnot maxKnot Hclamped Hfront Hback Hwidth
             _ _ _ _ Hadj). lia. }
  assert (adjustParameter fuel s (u + (maxKnot - minKnot)) = Ok u') as H2.
  { apply (adjustParameter_mono s minKnot maxKnot Hclamped Hfront Hback Hwidth
             _ _ _ _
             (adjustParameter_shift s minKnot maxKnot Hclamped Hfront Hback
                Hwidth _ _ _ Hadj)).
    lia. }
  split_and!; [done | done | |]; unfold position; by rewrite ?H1, ?H2.
Qed.

(** ** Local arrays *)

Lemma length_array (n : Z) : length (array n) = Z.to_nat n.
Proof. apply length_replicate. Qed.

Lemma length_wr (a : list Real) (i : Z) (x : Real) : length (wr a i x) = length a.
Proof. apply length_insert. Qed.

Lemma rd_array (n i : Z) : rd (array n) i = 0.
Proof.
  unfold rd, array. rewrite list_lookup_total_alt.
  destruct (replicate _ _ !! _) eqn:H; [|done].
  by apply lookup_replicate in H as [-> _].
Qed.

Lemma rd_wr_eq (a : list Real) (i : Z) (x : Real) :
  (0 ≤ i < Z.of_nat (length a))%Z → rd (wr a i x) i = x.
Proof. intros Hi. unfold rd, wr. apply list_lookup_total_insert_eq. lia. Qed.

Lemma rd_wr_ne (a : list Real) (i j : Z) (x : Real) :
  (0 ≤ i)%Z → (0 ≤ j)%Z → i ≠ j → rd (wr a i x) j = rd a j.
Proof. intros Hi Hj Hij. unfold rd, wr. apply list_lookup_total_insert_ne. lia. Qed.

Lemma wr_id (a : list Real) (i : Z) (x : Real) : rd a i = x → wr a i x = a.
Proof.
  intros <-. unfold rd, wr. apply list_insert_id'. intros Hi.
  by apply list_lookup_lookup_total_lt.
Qed.

Lemma wr_wr (a : list Real) (i : Z) (x y : Real) : wr (wr a i x) i y = wr a i y.
Proof. apply list_insert_insert_eq. Qed.

(** ** Coordinates of vectors *)

Section Coordinates.
Context {N : nat}.
Implicit Types P Cw : Point N.

Lemma Vector_eta P : Vector.mk (coords P) (weight P) = P.
Proof. by destruct P. Qed.

(** [Cw += Pi * w * 0] leaves [Cw] as it is. *)
Lemma add_assign_scale_zero Cw P (w : Real) :
  add_assign Cw (scale (scale P w) 0) = Cw.
Proof.
  destruct Cw as [c wc]. unfold add_assign, scale. simpl. f_equal.
  apply vec_eq. intros i. rewrite vlookup_zip_with, !vlookup_map. ring.
Qed.

(** [Cw += Pi * 1 * 1] on the origin gives the coordinates of [Pi]. *)
Lemma add_assign_origin_scale_one P :
  add_assign origin (scale (scale P 1) 1) = Vector.mk (coords P) 1.
Proof.
  unfold add_assign, scale, origin. simpl. f_equal.
  apply vec_eq. intros i.
  rewrite vlookup_zip_with, !vlookup_map, vlookup_replicate. ring.
Qed.

Lemma div_one Cw : weight Cw = 1 → div Cw (weight Cw) = Ok Cw.
Proof.
  destruct Cw as [c wc]. simpl. intros ->. unfold div.
  rewrite decide_False by (intros H; qc_lra). simpl. do 2 f_equal.
  apply vec_eq. intros i. rewrite vlookup_map. field. intros H; qc_lra.
Qed.
End Coordinates.

(** ** Basis functions at the ends of a clamped knot vector *)

Lemma rdiv_Ok (x y : Real) : y ≠ 0 → rdiv x y = Ok (x / y).
Proof. intros Hy. unfold rdiv. by rewrite decide_False. Qed.

Section ClampedEnds.
Context (p n : Z) (U : list Real) (a b : Real).
Hypothesis Hp : (0 ≤ p ≤ n)%Z.
Hypothesis Hlen : Z.of_nat (length U) = (n + p + 2)%Z.
Hypothesis Hsorted : nondecreasing U.
Hypothesis Hclamped : clamped_knots p n U a b.

Lemma knot_above_min k :
  (1 ≤ k ≤ p)%Z → ∃ y, at_ U (p + k) = Ok y ∧ a < y.
Proof.
  intros Hk. destruct Hclamped as (_ & _ & (x & Hx & Hax) & _).
  destruct (at_in_range U (p + k)) as [y Hy]; [lia|]. exists y. split; [done|].
  pose proof (nondecreasing_at U (p + 1) (p + k) x y Hsorted ltac:(lia) Hx Hy).
  qc_lra.
Qed.

Lemma knot_below_max k :
  (1 ≤ k ≤ p)%Z → ∃ x, at_ U (n + 1 - k) = Ok x ∧ x < b.
Proof.
  intros Hk. destruct Hclamped as (_ & _ & _ & (y & Hy & Hyb)).
  destruct (at_in_range U (n + 1 - k)) as [x Hx]; [lia|]. exists x. split; [done|].
  pose proof (nondecreasing_at U (n + 1 - k) n x y Hsorted ltac:(lia) Hx Hy).
  qc_lra.
Qed.

Lemma min_below_max : a < b.
Proof.
  destruct Hclamped as (_ & Hb & (x & Hx & Hax) & _).
  pose proof (nondecreasing_at U (p + 1) (n + 1) x b Hsorted ltac:(lia) Hx
                (Hb (n + 1)%Z ltac:(lia))).
  qc_lra.
Qed.

(** At the first knot only the first basis function is not zero. *)
Lemma basisFuns_min : basisFuns p a p U = Ok (wr (array (p + 1)) 0 1).
Proof.
  unfold basisFuns, for_to.
  destruct (for_up_ind
    (λ j '(N_, left_, right_),
       N_ = wr (array (p + 1)) 0 1 ∧ left_ = array (p + 1)
       ∧ length right_ = Z.to_nat (p + 1)
       ∧ ∀ k, (1 ≤ k < j)%Z → 0 < rd right_ k)
    (basisFuns_outer p a U) 1 (Z.to_nat (p - 1 + 1))
    (wr (array (p + 1)) 0 1, array (p + 1), array (p + 1)))
    as ([[N_ left_] right_] & -> & -> & _); [| |done].
  2:{ split_and!; try done; [apply length_array | intros; lia]. }
  intros j [[N_ left_] right_] Hj (-> & -> & Hlength & Hright).
  unfold basisFuns_outer.
  destruct Hclamped as (Hfirst & _).
  rewrite (Hfirst (p + 1 - j)%Z) by lia. rewrite Ok_bind.
  destruct (knot_above_min j) as (y & -> & Hay); [lia|]. rewrite Ok_bind.
  replace (a - a) with (Q2Qc 0) by ring.
  rewrite (wr_id (array (p + 1)) j 0) by apply rd_array.
  assert (∀ k, (1 ≤ k < j + 1)%Z → 0 < rd (wr right_ j (y - a)) k) as Hright'.
  { intros k Hk. destruct (decide (k = j)) as [->|Hne].
    - rewrite rd_wr_eq by lia. qc_lra.
    - rewrite rd_wr_ne by lia. apply Hright. lia. }
  destruct (for_up_ind
    (λ (_ : Z) '(N_, saved), N_ = wr (array (p + 1)) 0 1 ∧ saved = 0)
    (basisFuns_inner (array (p + 1)) (wr right_ j (y - a)) j) 0 (Z.to_nat j)
    (wr (array (p + 1)) 0 1, 0)) as ([N_ saved] & -> & -> & ->); [|done|].
  { intros r [N_ saved] Hr [-> ->]. unfold basisFuns_inner.
    rewrite rd_array.
    assert (0 < rd (wr right_ j (y - a)) (r + 1)) as Hpos by (apply Hright'; lia).
    rewrite rdiv_Ok by (intros H; qc_lra). rewrite Ok_bind.
    eexists. split; [reflexivity|]. split.
    - apply wr_id. field. intros H; qc_lra.
    - ring. }
  rewrite Ok_bind. eexists. split; [reflexivity|].
  split_and!; try done.
  - apply wr_id. rewrite rd_wr_ne by lia. apply rd_array.
  - by rewrite length_wr.
Qed.

(** At the last knot only the last basis function is not zero. *)
Lemma basisFuns_max : basisFuns n b p U = Ok (wr (array (p + 1)) p 1).
Proof.
  unfold basisFuns, for_to.
  destruct (for_up_ind
    (λ j '(N_, left_, right_),
       N_ = wr (array (p + 1)) (j - 1) 1 ∧ right_ = array (p + 1)
       ∧ length left_ = Z.to_nat (p + 1)
       ∧ ∀ k, (1 ≤ k < j)%Z → 0 < rd left_ k)
    (basisFuns_outer n b U) 1 (Z.to_nat (p - 1 + 1))
    (wr (array (p + 1)) 0 1, array (p + 1), array (p + 1)))
    as ([[N_ left_] right_] & -> & -> & _); [| |].
  3:{ by replace (1 + Z.of_nat (Z.to_nat (p - 1 + 1)) - 1)%Z with p by lia. }
  2:{ split_and!; try done; [apply length_array | intros; lia]. }
  intros j [[N_ left_] right_] Hj (-> & -> & Hlength & Hleft).
  unfold basisFuns_outer.
  destruct Hclamped as (_ & Hlast & _).
  destruct (knot_below_max j) as (x & -> & Hxb); [lia|]. rewrite Ok_bind.
  rewrite (Hlast (n + j)%Z) by lia. rewrite Ok_bind.
  replace (b - b) with (Q2Qc 0) by ring.
  rewrite (wr_id (array (p + 1)) j 0) by apply rd_array.
  assert (∀ k, (1 ≤ k < j + 1)%Z → 0 < rd (wr left_ j (b - x)) k) as Hleft'.
  { intros k Hk. destruct (decide (k = j)) as [->|Hne].
    - rewrite rd_wr_eq by lia. qc_lra.
    - rewrite rd_wr_ne by lia. apply Hleft. lia. }
  destruct (for_up_ind
    (λ r '(N_, saved),
       ((r < j)%Z → N_ = wr (array (p + 1)) (j - 1) 1 ∧ saved = 0)
       ∧ (r = j → N_ = array (p + 1) ∧ saved = 1))
    (basisFuns_inner (wr left_ j (b - x)) (array (p + 1)) j) 0 (Z.to_nat j)
    (wr (array (p + 1)) (j - 1) 1, 0)) as ([N_ saved] & -> & _ & HN); [| |].
  3:{ destruct HN as [-> ->]; [lia|]. rewrite Ok_bind.
      eexists. split; [reflexivity|]. split_and!; try done.
      - by replace (j + 1 - 1)%Z with j by lia.
      - by rewrite length_wr. }
  2:{ split; [done | lia]. }
  intros r [N_ saved] Hr [HN _]. destruct HN as [-> ->]; [lia|].
  unfold basisFuns_inner. rewrite rd_array.
  assert (0 < rd (wr left_ j (b - x)) (j - r)) as Hpos by (apply Hleft'; lia).
  rewrite rdiv_Ok by (intros H; qc_lra). rewrite Ok_bind.
  eexists. split; [reflexivity|].
  destruct (decide (r = j - 1)%Z) as [->|Hne].
  - split; [lia|]. intros _. rewrite rd_wr_eq by (rewrite length_array; lia).
    split.
    + rewrite <- (wr_id (array (p + 1)) (j - 1) 0) at 2 by apply rd_array.
      rewrite wr_wr. f_equal; ring.
    + field. intros H; qc_lra.
  - split; [|lia]. intros _.
    rewrite rd_wr_ne by lia. rewrite rd_array. split.
    + apply wr_id. rewrite rd_wr_ne by lia. rewrite rd_array.
      unfold Qcdiv. ring.
    + unfold Qcdiv. ring.
Qed.
End ClampedEnds.

(** The sum of [curvePoint] when a single basis function is 1 and the
    others are 0 picks the control point of that basis function. *)
Lemma curvePoint_sum_unit {N : nat} (p span k : Z) (Pw : list (Point N))
    (Pk : Point N) :
  (0 ≤ k ≤ p)%Z → (0 ≤ span - p)%Z → (span < Z.of_nat (length Pw))%Z →
  Forall (λ P, weight P = 1) Pw →
  index Pw (span - p + k) = Ok Pk →
  for_to (λ j Cw,
            Pi ← index Pw (span - p + j);
            Ok (add_assign Cw
                  (scale (scale Pi (weight Pi)) (rd (wr (array (p + 1)) k 1) j))))
    0 p origin
  = Ok (Vector.mk (coords Pk) 1).
Proof.
  intros Hk Hspan Hlen Hw HPk. unfold for_to.
  match goal with |- for_up ?body _ _ _ = _ =>
    destruct (for_up_ind
      (λ j Cw, ((j ≤ k)%Z → Cw = origin)
               ∧ ((k < j)%Z → Cw = Vector.mk (coords Pk) 1))
      body 0 (Z.to_nat (p - 0 + 1)) origin) as (Cw & -> & _ & HCw)
  end.
  - intros j Cw Hj [Hbefore Hafter].
    destruct (lookup_lt_is_Some_2 Pw (Z.to_nat (span - p + j))) as [Pj HPj];
      [lia|].
    assert (index Pw (span - p + j) = Ok Pj) as ->.
    { unfold index. rewrite decide_True by lia. by rewrite HPj. }
    rewrite Ok_bind. eexists. split; [reflexivity|].
    assert (weight Pj = 1) as ->.
    { by eapply (proj1 (Forall_lookup _ _) Hw). }
    destruct (decide (j = k)) as [->|Hne].
    + rewrite rd_wr_eq by (rewrite length_array; lia).
      rewrite Hbefore by lia.
      assert (Pj = Pk) as -> by (apply index_elem_of in HPk; congruence).
      split; [lia|]. intros _. apply add_assign_origin_scale_one.
    + rewrite rd_wr_ne by lia. rewrite rd_array, add_assign_scale_zero.
      split; intros ?; [apply Hbefore | apply Hafter]; lia.
  - split; [done | lia].
  - f_equal. apply HCw. lia.
Qed.

Lemma front_at {A : Type} (U : list A) (x : A) : at_ U 0 = Ok x → front U = Ok x.
Proof.
  intros [_ H]%at_Ok_lookup. destruct U; [done|]. simpl in H. by injection H as ->.
Qed.

Lemma back_at {A : Type} (U : list A) (x : A) :
  at_ U (Z.of_nat (length U) - 1) = Ok x → back U = Ok x.
Proof.
  intros [Hi H]%at_Ok_lookup. unfold back. rewrite last_lookup.
  replace (pred (length U)) with (Z.to_nat (Z.of_nat (length U) - 1)) by lia.
  by rewrite H.
Qed.

(** Exact interpolation of the end control points on clamped knots. *)
Lemma position_clamped_knots {N : nat} (fuel : nat) (s : Spline N)
    (minKnot maxKnot : Real) (first_point last_point : Point N) :
  isClamped s = true →
  valid_configuration s →
  non_rational s →
  clamped_knots (getDegree s) (Z.of_nat (length (controlPoints s)) - 1)
    (knotVector s) minKnot maxKnot →
  head (controlPoints s) = Some first_point →
  last (controlPoints s) = Some last_point →
  front (knotVector s) = Ok minKnot
  ∧ back (knotVector s) = Ok maxKnot
  ∧ position fuel s minKnot = Ok first_point
  ∧ position fuel s maxKnot = Ok last_point.
Proof.
  intros Hcl (Hp & Hn & Hlen & Hsorted & _) Hunit Hknots Hfirst Hlast.
  set (p := getDegree s) in *. set (U := knotVector s) in *.
  set (Pw := controlPoints s) in *.
  set (n := (Z.of_nat (length Pw) - 1)%Z) in *.
  assert (0 ≤ p ≤ n)%Z as Hpn by lia.
  assert (Z.of_nat (length U) = n + p + 2)%Z as HlenU by lia.
  pose proof (min_below_max p n U minKnot maxKnot Hpn Hsorted Hknots) as Hlt.
  pose proof Hknots as (Hlow & Hhigh & _ & _).
  assert (front U = Ok minKnot) as Hfront.
  { apply front_at, Hlow. lia. }
  assert (back U = Ok maxKnot) as Hback.
  { apply back_at. rewrite HlenU. apply Hhigh. lia. }
  assert (weight first_point = 1) as Hw1.
  { apply (proj1 (Forall_forall _ _) Hunit).
    rewrite head_lookup in Hfirst. by eapply list_elem_of_lookup_2. }
  assert (weight last_point = 1) as Hw2.
  { apply (proj1 (Forall_forall _ _) Hunit).
    rewrite last_lookup in Hlast. by eapply list_elem_of_lookup_2. }
  split_and!; [done | done | |].
  - unfold position. fold p U Pw n.
    assert (adjustParameter fuel s minKnot = Ok minKnot) as ->.
    { unfold adjustParameter. fold U. rewrite Hfront, Hback, Hcl. simpl.
      unfold std_max. rewrite decide_False by qc_lra.
      unfold std_min. by rewrite decide_False by qc_lra. }
    rewrite Ok_bind. unfold curvePoint. rewrite decide_False by lia.
    assert (findSpan fuel n p minKnot U = Ok p) as ->.
    { unfold findSpan. rewrite (Hlow p) by lia. rewrite Ok_bind.
      by rewrite decide_True by qc_lra. }
    rewrite Ok_bind.
    rewrite (basisFuns_min p n U minKnot maxKnot) by done. rewrite Ok_bind.
    rewrite (curvePoint_sum_unit p p 0 Pw first_point); try done; try lia.
    + rewrite Ok_bind. rewrite (div_one (Vector.mk _ _)) by done.
      by rewrite <- Hw1, Vector_eta.
    + unfold index. rewrite decide_True by lia.
      replace (Z.to_nat (p - p + 0)) with 0%nat by lia.
      rewrite head_lookup in Hfirst. by rewrite Hfirst.
  - unfold position. fold p U Pw n.
    assert (adjustParameter fuel s maxKnot = Ok maxKnot) as ->.
    { unfold adjustParameter. fold U. rewrite Hfront, Hback, Hcl. simpl.
      unfold std_max. rewrite decide_False by qc_lra.
      unfold std_min. by rewrite decide_False by qc_lra. }
    rewrite Ok_bind. unfold curvePoint. rewrite decide_False by lia.
    assert (findSpan fuel n p maxKnot U = Ok n) as ->.
    { unfold findSpan. rewrite (Hlow p) by lia. rewrite Ok_bind.
      rewrite decide_False by qc_lra.
      rewrite (Hhigh (n + 1)%Z) by lia. rewrite Ok_bind.
      by rewrite decide_True by qc_lra. }
    rewrite Ok_bind.
    rewrite (basisFuns_max p n U minKnot maxKnot) by done. rewrite Ok_bind.
    rewrite (curvePoint_sum_unit p n p Pw last_point); try done; try lia.
    + rewrite Ok_bind. rewrite (div_one (Vector.mk _ _)) by done.
      by rewrite <- Hw2, Vector_eta.
    + unfold index. rewrite decide_True by lia.
      rewrite last_lookup in Hlast.
      replace (Z.to_nat (n - p + p)) with (pred (length Pw)) by lia.
      by rewrite Hlast.
Qed.

(** C2 (as amended). On a curve with the clamped flag, a valid
    configuration and unit weights, whose knot vector is clamped (the
    first knot fills the first [degree + 1] places and no more, the last
    knot the last [degree + 1] places and no more), the position at the
    first knot is the first control point and the position at the last
    knot is the last control point.  The knots generated for a uniform
    spline while its clamped flag is set are of this kind
    ([uniformKnots_clamped] and [position_uniform_clamped_ends] below);
    the flag alone does not make them so. *)
Theorem position_clamped_ends {N : nat} (fuel : nat) (s : Spline N)
    (minKnot maxKnot : Real) (first_point last_point : Point N) :
  isClamped s = true →
  valid_configuration s →
  non_rational s →
  clamped_knots (getDegree s) (Z.of_nat (length (controlPoints s)) - 1)
    (knotVector s) minKnot maxKnot →
  head (controlPoints s) = Some first_point →
  last (controlPoints s) = Some last_point →
  front (knotVector s) = Ok minKnot
  ∧ back (knotVector s) = Ok maxKnot
  ∧ position fuel s minKnot = Ok first_point
  ∧ position fuel s maxKnot = Ok last_point.
Proof. apply position_clamped_knots. Qed.

(** ** The knots generated for a uniform clamped spline *)

Lemma Real_of_int_le (x y : Z) : (x ≤ y)%Z → Real_of_int x ≤ Real_of_int y.
Proof. intros H. qc_push. by rewrite <- Zle_Qle. Qed.

Lemma Real_of_int_lt (x y : Z) : (x < y)%Z → Real_of_int x < Real_of_int y.
Proof. intros H. qc_push. by rewrite <- Zlt_Qlt. Qed.

Lemma Qcdiv_le_mono (x y z : Real) : 0 < z → x ≤ y → x / z ≤ y / z.
Proof.
  intros Hz Hxy. unfold Qcdiv. apply Qcmult_le_compat_r; [done|].
  apply Qclt_le_weak, Qcinv_pos. done.
Qed.

Lemma Qcdiv_lt_mono (x y z : Real) : 0 < z → x < y → x / z < y / z.
Proof.
  intros Hz Hxy. unfold Qcdiv. apply Qcmult_lt_compat_r; [|done].
  by apply Qcinv_pos.
Qed.

Lemma Qcdiv_diag (z : Real) : 0 < z → z / z = 1.
Proof. intros Hz. field. intros H. qc_lra. Qed.

Lemma lookup_push_range (i bound : Z) (value : Z → Real) (k : nat) :
  (i + Z.of_nat k < bound)%Z →
  push_range i bound value !! k = Some (value (i + Z.of_nat k)%Z).
Proof.
  intros Hk. unfold push_range. rewrite list_lookup_fmap.
  rewrite lookup_seq_lt by lia. done.
Qed.

Lemma length_push_range (i bound : Z) (value : Z → Real) :
  length (push_range i bound value) = Z.to_nat (bound - i).
Proof. unfold push_range. by rewrite length_map, length_seq. Qed.

Section UniformClamped.
Context (numPoints degree : Z).
Hypothesis Hdegree : (0 ≤ degree)%Z.
Hypothesis Hpoints : (degree + 1 ≤ numPoints)%Z.

Local Abbreviation knot := (clamped_knot numPoints degree).

Lemma length_uniformKnots_clamped :
  Z.of_nat (length (uniformKnots numPoints degree true))
  = (numPoints + degree + 1)%Z.
Proof.
  unfold uniformKnots. rewrite !length_app, !length_push_range. lia.
Qed.

Lemma at_uniformKnots_clamped (i : Z) :
  (0 ≤ i < numPoints + degree + 1)%Z →
  at_ (uniformKnots numPoints degree true) i = Ok (knot i).
Proof.
  intros Hi. apply at_Ok_lookup. split; [lia|].
  unfold uniformKnots, clamped_knot.
  destruct (decide (i ≤ degree)%Z) as [H1|H1].
  { rewrite lookup_app_l by (rewrite length_push_range; lia).
    rewrite lookup_push_range by lia. done. }
  rewrite lookup_app_r by (rewrite length_push_range; lia).
  rewrite length_push_range.
  destruct (decide (i < numPoints)%Z) as [H2|H2].
  { rewrite lookup_app_l by (rewrite length_push_range; lia).
    rewrite lookup_push_range by lia. do 3 f_equal. lia. }
  rewrite lookup_app_r by (rewrite length_push_range; lia).
  rewrite length_push_range.
  rewrite lookup_push_range by lia. done.
Qed.

Lemma knot_range (i : Z) : 0 ≤ knot i ≤ 1.
Proof.
  assert (0 < Real_of_int (numPoints - degree)) as Hpos.
  { apply (Real_of_int_lt 0). lia. }
  unfold clamped_knot. destruct (decide _); [split; qc_lra|].
  destruct (decide _); [|split; qc_lra]. split.
  - rewrite <- (div_zero_l (Real_of_int (numPoints - degree))).
    apply Qcdiv_le_mono; [done|]. apply (Real_of_int_le 0). lia.
  - rewrite <- (Qcdiv_diag (Real_of_int (numPoints - degree))) by done.
    apply Qcdiv_le_mono; [done|]. apply Real_of_int_le. lia.
Qed.

Lemma knot_mono (i j : Z) : (i ≤ j)%Z → knot i ≤ knot j.
Proof.
  intros Hij. pose proof (knot_range i) as Hi. pose proof (knot_range j) as Hj.
  assert (0 < Real_of_int (numPoints - degree)) as Hpos.
  { apply (Real_of_int_lt 0). lia. }
  unfold clamped_knot in *.
  destruct (decide (i ≤ degree)%Z); [qc_lra|].
  destruct (decide (j ≤ degree)%Z); [lia|].
  destruct (decide (j < numPoints)%Z); [|qc_lra].
  destruct (decide (i < numPoints)%Z); [|lia].
  apply Qcdiv_le_mono; [done|]. apply Real_of_int_le. lia.
Qed.

Lemma uniformKnots_nondecreasing :
  nondecreasing (uniformKnots numPoints degree true).
Proof.
  intros i j x y Hij Hx Hy.
  pose proof (lookup_lt_Some _ _ _ Hy) as Hj.
  pose proof length_uniformKnots_clamped as Hlen.
  assert (at_ (uniformKnots numPoints degree true) (Z.of_nat i) = Ok x) as Hx'.
  { apply at_Ok_lookup. rewrite Nat2Z.id. split; [lia | done]. }
  assert (at_ (uniformKnots numPoints degree true) (Z.of_nat j) = Ok y) as Hy'.
  { apply at_Ok_lookup. rewrite Nat2Z.id. split; [lia | done]. }
  rewrite at_uniformKnots_clamped in Hx', Hy' by lia.
  injection Hx' as <-. injection Hy' as <-. apply knot_mono. lia.
Qed.

(** The generated knots are clamped: 0 and 1 with multiplicity
    [degree + 1]. *)
Lemma uniformKnots_clamped :
  clamped_knots degree (numPoints - 1) (uniformKnots numPoints degree true) 0 1.
Proof.
  assert (0 < Real_of_int (numPoints - degree)) as Hpos.
  { apply (Real_of_int_lt 0). lia. }
  split_and!.
  - intros i Hi. rewrite at_uniformKnots_clamped by lia.
    unfold clamped_knot. by rewrite decide_True by lia.
  - intros i Hi. rewrite at_uniformKnots_clamped by lia.
    unfold clamped_knot. rewrite decide_False by lia. by rewrite decide_False by lia.
  - eexists. split; [apply at_uniformKnots_clamped; lia|].
    unfold clamped_knot. rewrite decide_False by lia.
    destruct (decide _); [|qc_lra].
    rewrite <- (div_zero_l (Real_of_int (numPoints - degree))).
    apply Qcdiv_lt_mono; [done|]. apply (Real_of_int_lt 0). lia.
  - eexists. split; [apply at_uniformKnots_clamped; lia|].
    unfold clamped_knot. destruct (decide _); [qc_lra|].
    rewrite decide_True by lia.
    rewrite <- (Qcdiv_diag (Real_of_int (numPoints - degree))) by done.
    apply Qcdiv_lt_mono; [done|]. apply Real_of_int_lt. lia.
Qed.
End UniformClamped.

(** A uniform clamped spline built by the constructor from at least
    [degree + 1] control points of weight 1 passes through its first and
    last control points at the ends 0 and 1 of its domain. *)
Corollary position_uniform_clamped_ends {N : nat} (fuel : nat)
    (points : list (Point N)) (degree : Z) (first_point last_point : Point N) :
  (0 ≤ degree)%Z → (degree + 1 ≤ Z.of_nat (length points))%Z →
  Forall (λ P, weight P = 1) points →
  head points = Some first_point → last points = Some last_point →
  position fuel (Spline_of_points points degree) 0 = Ok first_point
  ∧ position fuel (Spline_of_points points degree) 1 = Ok last_point.
Proof.
  intros Hd Hn Hw Hfirst Hlast.
  eapply position_clamped_knots; try done.
  - split_and!; try done.
    + by apply length_uniformKnots_clamped.
    + by apply uniformKnots_nondecreasing.
    + simpl. eapply Forall_impl; [exact Hw|]. intros P ->. intros H. qc_lra.
  - by apply uniformKnots_clamped.
Qed.

(** ** Soundness of the checkers *)

Lemma sortedb_nondecreasing (U : list Real) : sortedb U = true → nondecreasing U.
Proof.
  induction U as [|x U IH]; intros Hs i j a b Hij Hi Hj; [done|].
  assert (nondecreasing U) as HU.
  { apply IH. simpl in Hs. destruct U; [done|].
    by apply andb_true_iff in Hs as [_ ?]. }
  destruct i as [|i], j as [|j]; simpl in Hi, Hj; try lia.
  - injection Hi as <-. injection Hj as <-. apply Qcle_refl.
  - injection Hi as <-. destruct U as [|y U]; [done|].
    simpl in Hs. apply andb_true_iff in Hs as [Hxy%bool_decide_eq_true _].
    apply Qcle_trans with y; [done|].
    apply (HU 0%nat j y b); [lia | done | done].
  - apply (HU i j a b); [lia | done | done].
Qed.

Lemma validb_valid {N : nat} (s : Spline N) : validb s = true → valid_configuration s.
Proof.
  unfold validb, valid_configuration. rewrite !andb_true_iff.
  intros ((((H1 & H2) & H3) & H4) & H5).
  apply bool_decide_eq_true in H1, H2, H3. split_and!; try done.
  - by apply sortedb_nondecreasing.
  - apply Forall_forall. intros P HP.
    rewrite forallb_forall in H5.
    apply (bool_decide_eq_true_1 (weight P ≠ 0)), H5. by apply list_elem_of_In.
Qed.

(** ** Instances on the example configurations *)

Lemma position_clamped_ends_witness :
  position 1 Examples.main_curve 0
    = Ok (point [# Examples.q 0 1; Examples.q 0 1; Examples.q 0 1])
  ∧ position 1 Examples.main_curve 1
    = Ok (point [# Examples.q 0 1; Examples.q 1 1; Examples.q 0 1]).
Proof.
  refine (let H := position_clamped_ends 1 Examples.main_curve 0 1
                     (point [# Examples.q 0 1; Examples.q 0 1; Examples.q 0 1])
                     (point [# Examples.q 0 1; Examples.q 1 1; Examples.q 0 1])
                     _ _ _ _ _ _ in conj (proj1 (proj2 (proj2 H))) (proj2 (proj2 (proj2 H)))).
  - reflexivity.
  - apply validb_valid. vm_compute. reflexivity.
  - unfold non_rational. simpl. repeat constructor.
  - apply (uniformKnots_clamped 4 3); lia.
  - reflexivity.
  - reflexivity.
Defined.

(** C2, as stated, fails: after [setClamped(false)], four pushes and
    [setClamped(true)] the curve is clamped by its flag, its
    configuration is valid and its weights are 1, and its knots are the
    ones of the last push, [0, 1/7, ..., 1].  The first control point is
    1 and the last one is 7; the position is 113/6 at the first knot and
    -17/3 at the last knot, and 7/3 and 29/6 at [knots[degree]] and
    [knots[numControlPoints]]. *)
Lemma position_clamped_flag_counterexample :
  isClamped Examples.stale_clamped = true
  ∧ valid_configuration Examples.stale_clamped
  ∧ non_rational Examples.stale_clamped
  ∧ knotVector Examples.stale_clamped
    = [Examples.q 0 1; Examples.q 1 7; Examples.q 2 7; Examples.q 3 7;
       Examples.q 4 7; Examples.q 5 7; Examples.q 6 7; Examples.q 1 1]
  ∧ head (controlPoints Examples.stale_clamped) = Some (point [# Examples.q 1 1])
  ∧ last (controlPoints Examples.stale_clamped) = Some (point [# Examples.q 7 1])
  ∧ position 1 Examples.stale_clamped (Examples.q 0 1)
    = Ok (point [# Examples.q 113 6])
  ∧ position 1 Examples.stale_clamped (Examples.q 1 1)
    = Ok (point [# Examples.q (-17) 3])
  ∧ position 1 Examples.stale_clamped (Examples.q 3 7)
    = Ok (point [# Examples.q 7 3])
  ∧ position 1 Examples.stale_clamped (Examples.q 4 7)
    = Ok (point [# Examples.q 29 6]).
Proof.
  split_and!.
  - reflexivity.
  - apply validb_valid. vm_compute. reflexivity.
  - unfold non_rational. simpl. repeat constructor.
  - by_computation.
  - reflexivity.
  - reflexivity.
  - by_computation.
  - by_computation.
  - by_computation.
  - by_computation.
Qed.


Lemma position_periodic_witness :
  ∃ (fuel0 : nat) (u' : Real) (k : Z),
    u' = Examples.q 4 3 + Real_of_int k * (1 - 0)
    ∧ 0 ≤ u' < 1
    ∧ ∀ fuel, (fuel0 ≤ fuel)%nat →
        adjustParameter fuel Examples.periodic (Examples.q 4 3) = Ok u'
        ∧ position fuel Examples.periodic (Examples.q 4 3 + (1 - 0))
          = position fuel Examples.periodic (Examples.q 4 3).
Proof.
  destruct (position_periodic Examples.periodic 0 1 (Examples.q 4 3))
    as (fuel0 & u' & k & Hk & Hrange & H).
  - reflexivity.
  - by_computation.
  - by_computation.
  - reflexivity.
  - exists fuel0, u', k. split_and!; [exact Hk | apply Hrange | apply Hrange|].
    intros fuel Hfuel.
    destruct (H fuel Hfuel) as (H1 & _ & _ & H3). split; [exact H1 | exact H3].
Defined.

(** ** What [position] returns on a rational curve *)

Section Homogeneous.
Context {N : nat}.

Lemma curvePoint_sums (Pw : list (Point N)) (N_ : list Real) (span p : Z)
    (count : nat) (lo : Z) (Cw : Point N) (den : Real) :
  match
    for_up (λ j Cw,
              Pi ← index Pw (span - p + j);
              Ok (add_assign Cw (scale (scale Pi (weight Pi)) (rd N_ j))))
      lo count Cw,
    for_up (λ j '(num, den),
              Pi ← index Pw (span - p + j);
              Ok (vzip_with Qcplus num
                    (vmap (λ x, x * weight Pi * rd N_ j) (coords Pi)),
                  den + weight Pi * rd N_ j))
      lo count (coords Cw, den)
  with
  | Ok Cw', Ok (num', _) => coords Cw' = num' ∧ weight Cw' = weight Cw
  | Err e, Err e' => e = e'
  | _, _ => False
  end.
Proof.
  revert lo Cw den. induction count as [|count IH]; intros lo Cw den.
  { done. }
  cbn [for_up]. destruct (index Pw (span - p + lo)) as [Pi|e]; [|done].
  rewrite !Ok_bind.
  match goal with |- context [for_up _ _ _ (?num, ?den')] =>
    replace num with (coords (add_assign Cw (scale (scale Pi (weight Pi)) (rd N_ lo))));
    [exact (IH (lo + 1)%Z _ den')|]
  end.
  unfold add_assign, scale. simpl. f_equal.
  apply vec_eq. intros i. by rewrite !vlookup_map.
Qed.

(** Where the two sums of the specification are defined, [position]
    returns the first of them as it is: the division made by the code
    is by the weight of the accumulator, which is 1, and not by the
    second sum. *)
Lemma position_homogeneous_sum (fuel : nat) (s : Spline N) (t : Real)
    (num : vec Real N) (den : Real) :
  homogeneous_sums fuel s t = Ok (num, den) →
  position fuel s t = Ok (Vector.mk num 1).
Proof.
  unfold homogeneous_sums, position, curvePoint. intros H.
  inv_bind H as u Hu. rewrite Hu, Ok_bind.
  destruct (decide _); [discriminate|].
  inv_bind H as span Hspan. rewrite Hspan, Ok_bind.
  inv_bind H as N_ HN. rewrite HN, Ok_bind.
  unfold for_to in *.
  pose proof (curvePoint_sums (controlPoints s) N_ span (getDegree s)
                (Z.to_nat (getDegree s - 0 + 1)) 0 origin 0) as Hsums.
  change (coords (@origin N)) with (vreplicate N (Q2Qc 0)) in Hsums.
  rewrite H in Hsums.
  destruct (for_up _ _ _ origin) as [Cw|e]; [|done].
  destruct Hsums as [Hc Hw]. rewrite Ok_bind.
  rewrite div_one by done. f_equal.
  destruct Cw as [c w]. simpl in *. by subst.
Qed.
End Homogeneous.

(** C1, at a configuration where it fails.  On the segment of degree 1
    whose two control points 0 and 1 have weight 2 (a valid
    configuration), the rational point at 1/2 is 1/2, and [position(1/2)]
    is 1: the homogeneous sum, not divided by the sum of the weights times
    the basis values, which is 2. *)
Theorem position_not_dehomogenized :
  valid_configuration Examples.weighted_segment
  ∧ homogeneous_sums 1 Examples.weighted_segment (Examples.q 1 2)
    = Ok ([# Examples.q 1 1], Examples.q 2 1)
  ∧ rational_point 1 Examples.weighted_segment (Examples.q 1 2)
    = Ok [# Examples.q 1 2]
  ∧ position 1 Examples.weighted_segment (Examples.q 1 2)
    = Ok (point [# Examples.q 1 1]).
Proof.
  split_and!; [apply validb_valid; vm_compute; reflexivity | ..];
    by_computation.
Qed.

(** ** Configurations that are not valid *)

(** C7, as the code has it.  [position] does not validate the
    configuration; its only check is the bounds check of the knot
    accesses.  When the knot vector is not empty and has no entry at index
    [degree], no point is returned, and on a clamped curve the outcome is
    [std::out_of_range], raised by the first knot access of [findSpan]. *)
Theorem position_short_knot_vector {N : nat} (fuel : nat) (s : Spline N) (t : Real) :
  knotVector s ≠ [] →
  (0 ≤ getDegree s)%Z →
  (Z.of_nat (length (knotVector s)) ≤ getDegree s)%Z →
  (∀ P, position fuel s t ≠ Ok P)
  ∧ (isClamped s = true → position fuel s t = Err OutOfRange).
Proof.
  intros Hne Hp Hlen.
  assert (∀ u, curvePoint fuel (Z.of_nat (length (controlPoints s)) - 1)
                 (getDegree s) (knotVector s) (controlPoints s) u
               = Err OutOfRange) as Hcurve.
  { intros u. unfold curvePoint. rewrite decide_False by lia.
    unfold findSpan.
    by rewrite (at_out_of_range (knotVector s) (getDegree s)) by lia. }
  split.
  - intros P H. unfold position in H. inv_bind H as u Hu.
    by rewrite Hcurve in H.
  - intros Hcl. unfold position, adjustParameter. rewrite Hcl.
    destruct (knotVector s) as [|x U] eqn:HU; [done|]. simpl front.
    rewrite Ok_bind. unfold back.
    destruct (last (x :: U)) as [y|] eqn:Hlast.
    + rewrite !Ok_bind. apply Hcurve.
    + by apply last_None in Hlast.
Qed.

Lemma position_short_knot_vector_witness :
  position 1 Examples.short_knots 0 = Err OutOfRange.
Proof.
  apply (position_short_knot_vector 1 Examples.short_knots 0);
    [discriminate | simpl; lia | simpl; lia | reflexivity].
Defined.

(** C7, as stated, fails: with five knots for two control points of
    degree 1 the configuration is not valid, and [position(1/3)] returns
    the point 1/3 without any error. *)
Lemma position_validation_counterexample :
  invalid_configuration Examples.mis_sized
  ∧ position 1 Examples.mis_sized (Examples.q 1 3)
    = Ok (point [# Examples.q 1 3]).
Proof.
  split; [right; right; simpl; lia | by_computation].
Qed.

(** ** Derivatives of a cubic curve *)

Ltac sym_eval :=
  cbv -[Qcplus Qcminus Qcmult Qcdiv Qcopp Q2Qc Qcinv rdiv Real_of_int].

Lemma cubic_knots : knotVector Examples.cubic = [0; 0; 0; 0; 1; 1; 1; 1].
Proof. by_computation. Qed.

Lemma Real_of_int_3 : Real_of_int 3 = 1 + 1 + 1.
Proof. by_computation. Qed.

(** On the knots [0,0,0,0,1,1,1,1] the basis functions of degree 3 are the
    Bernstein polynomials. *)
Lemma basisFuns_cubic (t : Real) :
  basisFuns 3 t 3 [0; 0; 0; 0; 1; 1; 1; 1]
  = Ok [(1 - t) * (1 - t) * (1 - t); Real_of_int 3 * t * (1 - t) * (1 - t);
        Real_of_int 3 * t * t * (1 - t); t * t * t].
Proof.
  sym_eval. do 6 (rewrite rdiv_Ok by qc_lra; sym_eval).
  rewrite Real_of_int_3. f_equal.
  repeat (apply (f_equal2 cons); [field; qc_lra|]). reflexivity.
Qed.

Lemma findSpan_cubic (fuel : nat) (t : Real) :
  0 ≤ t ≤ 1 → findSpan (S fuel) 3 3 t [0; 0; 0; 0; 1; 1; 1; 1] = Ok 3%Z.
Proof.
  intros Ht. unfold findSpan.
  change (at_ [0; 0; 0; 0; 1; 1; 1; 1] 3) with (Ok (Q2Qc 0)).
  change (at_ [0; 0; 0; 0; 1; 1; 1; 1] (3 + 1)) with (Ok (Q2Qc 1)).
  rewrite !Ok_bind. destruct (decide (t ≤ 0)); [done|].
  destruct (decide (1 ≤ t)); [done|]. cbn [findSpan_while].
  change (at_ [0; 0; 0; 0; 1; 1; 1; 1] ((3 + (3 + 1)) `quot` 2))
    with (Ok (Q2Qc 0)).
  change (at_ [0; 0; 0; 0; 1; 1; 1; 1] ((3 + (3 + 1)) `quot` 2 + 1))
    with (Ok (Q2Qc 1)).
  rewrite !Ok_bind. rewrite decide_False by qc_lra.
  by rewrite decide_False by done.
Qed.

(** The curve [Examples.cubic] is the polynomial [(1 - t)^3] on its
    domain [[0, 1]]. *)
Lemma position_cubic (fuel : nat) (t : Real) :
  0 ≤ t ≤ 1 →
  position (S fuel) Examples.cubic t
  = Ok (point [# peval Examples.cubic_poly t]).
Proof.
  intros Ht. unfold position. rewrite cubic_knots.
  assert (adjustParameter (S fuel) Examples.cubic t = Ok t) as ->.
  { unfold adjustParameter. rewrite cubic_knots.
    change (front _) with (Ok (Q2Qc 0)). change (back _) with (Ok (Q2Qc 1)).
    rewrite !Ok_bind. change (isClamped Examples.cubic) with true. cbv iota.
    unfold std_max. rewrite decide_False by qc_lra.
    unfold std_min. by rewrite decide_False by qc_lra. }
  rewrite Ok_bind. unfold curvePoint.
  change (getDegree Examples.cubic) with 3%Z.
  change (Z.of_nat (length (controlPoints Examples.cubic)) - 1)%Z with 3%Z.
  rewrite decide_False by lia.
  rewrite findSpan_cubic, Ok_bind by done.
  rewrite basisFuns_cubic, Ok_bind.
  match goal with |- ?c ≫= _ = _ =>
    assert (c = Ok (point [# peval Examples.cubic_poly t])) as ->
  end.
  { sym_eval. rewrite Real_of_int_3. do 3 f_equal.
    replace (Q2Qc (-3 # 1)) with (- (1 + 1 + 1)) by by_computation.
    replace (Q2Qc (3 # 1)) with (1 + 1 + 1) by by_computation.
    replace (Q2Qc (-1 # 1)) with (- (1)) by by_computation.
    replace (Q2Qc (1 # 1)) with 1 by by_computation.
    replace (Q2Qc (0 # 1)) with 0 by by_computation.
    ring. }
  rewrite Ok_bind. by apply div_one.
Qed.

(** The rows of the table of [curveDerivs] overlap when [d < p]: for order
    [d = 2] and degree [p = 3] the table is 3 x 4 and [operator[]] places
    row [i] at offset [3 * i], so that [nders[1][3]] and [nders[2][0]] are
    the same cell. *)
Lemma Matrix_rows_overlap (x : Real) :
  Matrix.get (Matrix.set (Matrix.new (2 + 1) (3 + 1)) 1 3 x) 2 0 = x.
Proof. reflexivity. Qed.

(** C3, at a configuration where it fails.  [Examples.cubic] has unit
    weights and degree 3 and is the polynomial [1 - 3 t + 3 t^2 - t^3]
    ([position_cubic]).  At [t = 1/2], in the interior of the domain, the
    derivatives of order 1 and 3 returned by [derivative] are those of
    the polynomial, -3/4 and -6; the derivative of order 2 of the
    polynomial is 3, and [derivative(1/2, 2)] returns 9/2. *)
Theorem derivative_order_two_of_cubic :
  non_rational Examples.cubic
  ∧ valid_configuration Examples.cubic
  ∧ derivative 1 Examples.cubic (Examples.q 1 2) 1
    = Ok (point [# peval (pderive Examples.cubic_poly) (Examples.q 1 2)])
  ∧ derivative 1 Examples.cubic (Examples.q 1 2) 3
    = Ok (point [# peval (pderive (pderive (pderive Examples.cubic_poly)))
                     (Examples.q 1 2)])
  ∧ peval (pderive (pderive Examples.cubic_poly)) (Examples.q 1 2)
    = Examples.q 3 1
  ∧ derivative 1 Examples.cubic (Examples.q 1 2) 2
    = Ok (point [# Examples.q 9 2]).
Proof.
  split_and!.
  - unfold non_rational. simpl. repeat constructor.
  - apply validb_valid. vm_compute. reflexivity.
  - by_computation.
  - by_computation.
  - by_computation.
  - by_computation.
Qed.

(** * Further properties *)

(** ** Knot vectors generated by [computeUniformKnotVector] *)

Lemma length_uniformKnots (numPoints degree : Z) (clamped : bool) :
  (0 ≤ numPoints)%Z → (0 ≤ degree)%Z →
  Z.of_nat (length (uniformKnots numPoints degree clamped))
  = (numPoints + degree + 1)%Z.
Proof.
  intros Hn Hd. unfold uniformKnots. destruct clamped.
  - rewrite !length_app, !length_push_range. lia.
  - rewrite length_push_range. lia.
Qed.

(** X1. On a uniform spline of non-negative degree, every structural
    mutation leaves a knot vector of [numControlPoints + degree + 1]
    knots, whatever the number of control points and whether the spline
    is clamped or not. *)
Theorem mutation_knot_count {N : nat} (s : Spline N) (P : Point N) (i : nat) :
  isUniform s = true → (0 ≤ getDegree s)%Z →
  let count (s' : Spline N) :=
    Z.of_nat (length (knotVector s'))
    = (Z.of_nat (length (controlPoints s')) + getDegree s' + 1)%Z in
  count (pushControlPoint P s)
  ∧ count (insertControlPoint i P s)
  ∧ count (eraseControlPoint i s).
Proof.
  intros Hu Hd count. unfold count, pushControlPoint, insertControlPoint,
    eraseControlPoint, computeUniformKnotVector. simpl. rewrite Hu. simpl.
  split_and!; apply length_uniformKnots; lia.
Qed.

Lemma mutation_knot_count_witness :
  Z.of_nat (length (knotVector (pushControlPoint (@origin 1) Examples.periodic)))
  = (Z.of_nat (length (controlPoints
                         (pushControlPoint (@origin 1) Examples.periodic)))
     + getDegree (pushControlPoint (@origin 1) Examples.periodic) + 1)%Z.
Proof.
  apply (mutation_knot_count Examples.periodic origin 0); [reflexivity | simpl; lia].
Defined.

Section UniformPeriodic.
Context (numPoints degree : Z).
Hypothesis Hdegree : (0 ≤ degree)%Z.
Hypothesis Hpoints : (1 ≤ numPoints)%Z.

Lemma at_uniformKnots_periodic (i : Z) :
  (0 ≤ i < numPoints + degree + 1)%Z →
  at_ (uniformKnots numPoints degree false) i
  = Ok (Real_of_int i / Real_of_int (numPoints + degree)).
Proof.
  intros Hi. apply at_Ok_lookup. split; [lia|].
  unfold uniformKnots. rewrite lookup_push_range by lia.
  do 3 f_equal; lia.
Qed.

Lemma uniformKnots_periodic_increasing (i j : Z) (x y : Real) :
  (0 ≤ i < j)%Z →
  at_ (uniformKnots numPoints degree false) i = Ok x →
  at_ (uniformKnots numPoints degree false) j = Ok y →
  x < y.
Proof.
  intros Hij Hx Hy.
  pose proof (length_uniformKnots numPoints degree false ltac:(lia) Hdegree) as Hlen.
  pose proof Hy as [_ Hj%lookup_lt_Some]%at_Ok_lookup.
  rewrite at_uniformKnots_periodic in Hx, Hy by lia.
  injection Hx as <-. injection Hy as <-.
  apply Qcdiv_lt_mono; [apply (Real_of_int_lt 0); lia | apply Real_of_int_lt; lia].
Qed.

Lemma uniformKnots_periodic_nondecreasing :
  nondecreasing (uniformKnots numPoints degree false).
Proof.
  intros i j x y Hij Hx Hy.
  destruct (decide (i = j)) as [->|Hne].
  { rewrite Hx in Hy. injection Hy as ->. apply Qcle_refl. }
  apply Qclt_le_weak.
  apply (uniformKnots_periodic_increasing (Z.of_nat i) (Z.of_nat j)); [lia | |];
    apply at_Ok_lookup; rewrite Nat2Z.id; (split; [lia | done]).
Qed.
End UniformPeriodic.

(** X2. Regenerated knots are valid for evaluation: on a uniform spline
    of non-negative degree with at least [degree + 1] control points of
    non-zero weight, [computeUniformKnotVector] (hence every constructor
    and structural mutation that leaves that many points) yields a valid
    configuration whose domain is [[0, 1]], clamped or not. *)
Theorem computeUniformKnotVector_valid {N : nat} (s : Spline N) :
  isUniform s = true → (0 ≤ getDegree s)%Z →
  (getDegree s + 1 ≤ Z.of_nat (length (controlPoints s)))%Z →
  Forall (λ P, weight P ≠ 0) (controlPoints s) →
  valid_configuration (computeUniformKnotVector s)
  ∧ front (knotVector (computeUniformKnotVector s)) = Ok 0
  ∧ back (knotVector (computeUniformKnotVector s)) = Ok 1.
Proof.
  intros Hu Hd Hn Hw. unfold computeUniformKnotVector. rewrite Hu. simpl.
  set (np := Z.of_nat (length (controlPoints s))) in *.
  set (d := getDegree s) in *.
  pose proof (length_uniformKnots np d (isClamped s) ltac:(lia) Hd) as Hlen.
  unfold valid_configuration. simpl. fold np d.
  destruct (isClamped s).
  - pose proof (uniformKnots_clamped np d Hd Hn) as (Hlow & Hhigh & _).
    split_and!; try done.
    + by apply uniformKnots_nondecreasing.
    + apply front_at, Hlow. lia.
    + apply back_at. rewrite Hlen.
      replace (np + d + 1 - 1)%Z with (np - 1 + d + 1)%Z by lia.
      apply Hhigh. lia.
  - split_and!; try done.
    + apply uniformKnots_periodic_nondecreasing; lia.
    + apply front_at. rewrite at_uniformKnots_periodic by lia.
      by rewrite div_zero_l.
    + apply back_at. rewrite Hlen, at_uniformKnots_periodic by lia.
      replace (np + d + 1 - 1)%Z with (np + d)%Z by lia.
      rewrite Qcdiv_diag; [done|]. apply (Real_of_int_lt 0). lia.
Qed.

Lemma computeUniformKnotVector_valid_witness :
  valid_configuration (computeUniformKnotVector Examples.periodic).
Proof.
  apply (computeUniformKnotVector_valid Examples.periodic);
    [reflexivity | simpl; lia | simpl; lia |].
  simpl. repeat constructor; discriminate.
Defined.

(** X3. On a spline with custom knots ([uniform] is false) the
    structural mutations leave the knot vector as it is, so that a knot
    vector of the right length for the control points is of the wrong
    length after [pushControlPoint] or [insertControlPoint]: the
    configuration is one of those that must be rejected. *)
Theorem mutation_keeps_custom_knots {N : nat} (s : Spline N) (P : Point N)
    (i : nat) :
  isUniform s = false →
  knotVector (pushControlPoint P s) = knotVector s
  ∧ knotVector (insertControlPoint i P s) = knotVector s
  ∧ knotVector (eraseControlPoint i s) = knotVector s
  ∧ (Z.of_nat (length (knotVector s))
     = (Z.of_nat (length (controlPoints s)) + getDegree s + 1)%Z →
     invalid_configuration (pushControlPoint P s)
     ∧ invalid_configuration (insertControlPoint i P s)).
Proof.
  intros Hu. unfold pushControlPoint, insertControlPoint, eraseControlPoint,
    computeUniformKnotVector. simpl. rewrite Hu. simpl.
  split_and!; try done. intros Hlen.
  split; right; right; simpl.
  - rewrite length_app. simpl. lia.
  - rewrite length_app. simpl. rewrite length_take, length_drop. lia.
Qed.

Lemma mutation_keeps_custom_knots_witness :
  invalid_configuration (pushControlPoint (@origin 1) Examples.custom).
Proof.
  apply (mutation_keeps_custom_knots Examples.custom origin 0);
    [reflexivity | simpl; lia].
Defined.

(** ** Loops, again *)

(** An invariant that depends on the index, for a loop that completes. *)
Lemma for_up_inv_ix {St : Type} (I : Z → St → Prop) (body : Z → St → result St)
    (lo : Z) (count : nat) (s s' : St) :
  (∀ i x x', (lo ≤ i < lo + Z.of_nat count)%Z → I i x → body i x = Ok x' →
             I (i + 1)%Z x') →
  I lo s → for_up body lo count s = Ok s' → I (lo + Z.of_nat count)%Z s'.
Proof.
  revert lo s. induction count as [|count IH]; intros lo s Hbody Hs Hrun.
  - simpl in Hrun. injection Hrun as <-.
    by replace (lo + Z.of_nat 0)%Z with lo by lia.
  - cbn [for_up] in Hrun. inv_bind Hrun as x Hx.
    replace (lo + Z.of_nat (S count))%Z with (lo + 1 + Z.of_nat count)%Z by lia.
    apply (IH (lo + 1)%Z x); [|by apply (Hbody lo s); [lia|..]|done].
    intros i y y' Hi. apply Hbody. lia.
Qed.

Lemma rdiv_Ok_inv (x y t : Real) : rdiv x y = Ok t → y ≠ 0 ∧ t = x / y.
Proof. unfold rdiv. destruct (decide _); [discriminate|]. by intros [= <-]. Qed.

(** ** The span search is sound and monotone *)

(** Whatever the fuel, a span returned by the binary search started on
    [U[low] ≤ u < U[high]] brackets [u]. *)
Lemma findSpan_while_sound (fuel : nat) (u : Real) (U : list Real)
    (low high span : Z) (x y : Real) :
  (0 ≤ low < high)%Z →
  at_ U low = Ok x → x ≤ u → at_ U high = Ok y → u < y →
  findSpan_while fuel u U low high ((low + high) `quot` 2) = Ok span →
  (low ≤ span < high)%Z
  ∧ ∃ x' y', at_ U span = Ok x' ∧ at_ U (span + 1) = Ok y' ∧ x' ≤ u < y'.
Proof.
  revert low high x y.
  induction fuel as [|fuel IH]; intros low high x y Hlh Hx Hxu Hy Huy Hrun;
    [discriminate|].
  cbn [findSpan_while] in Hrun.
  set (mid := ((low + high) `quot` 2)%Z) in *.
  assert (low ≤ mid < high)%Z as Hmid.
  { unfold mid. rewrite Z.quot_div_nonneg by lia.
    split; [apply Z.div_le_lower_bound | apply Z.div_lt_upper_bound]; lia. }
  inv_bind Hrun as m Hm.
  destruct (decide (u < m)) as [Hum|Hum].
  - assert (low < mid)%Z as Hlow.
    { destruct (decide (low = mid)) as [Heq|]; [|lia].
      rewrite <- Heq, Hx in Hm. injection Hm as ->. exfalso. qc_lra. }
    destruct (IH low mid x m) as (Hspan & Hrest); try done; try lia.
    split; [lia | done].
  - inv_bind Hrun as m1 Hm1.
    destruct (decide (m1 ≤ u)) as [Hm1u|Hm1u].
    + assert (mid + 1 < high)%Z as Hhigh.
      { destruct (decide (mid + 1 = high)%Z) as [Heq|]; [|lia].
        rewrite Heq, Hy in Hm1. injection Hm1 as ->. exfalso. qc_lra. }
      destruct (IH mid high m y) as (Hspan & Hrest); try done; try lia; [qc_lra|].
      split; [lia | done].
    + injection Hrun as <-. split; [lia|].
      exists m, m1. split_and!; first [done | qc_lra].
Qed.

(** The three ways in which [findSpan] returns. *)
Lemma findSpan_cases (fuel : nat) (n p span : Z) (u : Real) (U : list Real) :
  (0 ≤ p ≤ n)%Z →
  findSpan fuel n p u U = Ok span →
  ∃ Up, at_ U p = Ok Up
    ∧ ((u ≤ Up ∧ span = p)
       ∨ (Up < u ∧ ∃ Un1, at_ U (n + 1) = Ok Un1
            ∧ ((Un1 ≤ u ∧ span = n)
               ∨ (u < Un1 ∧ (p ≤ span ≤ n)%Z
                  ∧ ∃ x y, at_ U span = Ok x ∧ at_ U (span + 1) = Ok y
                           ∧ x ≤ u < y)))).
Proof.
  intros Hp Hrun. unfold findSpan in Hrun. inv_bind Hrun as Up HUp.
  exists Up. split; [done|].
  destruct (decide (u ≤ Up)) as [Hlo|Hlo].
  { left. injection Hrun as <-. done. }
  right. split; [qc_lra|]. inv_bind Hrun as Un1 HUn1. exists Un1. split; [done|].
  destruct (decide (Un1 ≤ u)) as [Hhi|Hhi].
  { left. injection Hrun as <-. done. }
  right. split; [qc_lra|].
  destruct (findSpan_while_sound fuel u U p (n + 1) span Up Un1)
    as (Hspan & Hrest); try done; try lia; try qc_lra.
  split; [lia | done].
Qed.

(** X4. [findSpan] is monotone: on non-decreasing knots, with
    [0 ≤ degree ≤ n], a larger parameter never gets a smaller span. *)
Theorem findSpan_monotone (fuel fuel' : nat) (n p span span' : Z) (u u' : Real)
    (U : list Real) :
  (0 ≤ p ≤ n)%Z → nondecreasing U → u ≤ u' →
  findSpan fuel n p u U = Ok span →
  findSpan fuel' n p u' U = Ok span' →
  (span ≤ span')%Z.
Proof.
  intros Hp Hsorted Huu' Hrun Hrun'.
  destruct (findSpan_cases _ _ _ _ _ _ Hp Hrun) as (Up & HUp & Hcase).
  destruct (findSpan_cases _ _ _ _ _ _ Hp Hrun') as (Up' & HUp' & Hcase').
  rewrite HUp in HUp'. injection HUp' as <-.
  destruct Hcase as [[Hlo ->]|(Hlo & Un1 & HUn1 & Hcase)].
  { destruct Hcase' as [[_ ->]|(_ & Un1 & _ & [[_ ->]|(_ & Hspan' & _)])]; lia. }
  destruct Hcase' as [[Hlo' _]|(Hlo' & Un1' & HUn1' & Hcase')];
    [exfalso; qc_lra|].
  rewrite HUn1 in HUn1'. injection HUn1' as <-.
  destruct Hcase as [[Hhi ->]|(Hhi & Hspan & x & y & Hx & Hy & Hxy)].
  { destruct Hcase' as [[_ ->]|(Hhi' & _)]; [lia | exfalso; qc_lra]. }
  destruct Hcase' as [[_ ->]|(Hhi' & Hspan' & x' & y' & Hx' & Hy' & Hxy')];
    [lia|].
  destruct (Z_lt_le_dec span' span) as [Hlt|]; [|done].
  pose proof (nondecreasing_at U (span' + 1) span y' x Hsorted ltac:(lia) Hy' Hx).
  exfalso. qc_lra.
Qed.

Lemma findSpan_monotone_witness : (1 ≤ 2)%Z.
Proof.
  apply (findSpan_monotone 2 2 2 1 1 2 (Examples.q 1 3) (Examples.q 2 3)
           (knotVector Examples.periodic)).
  - lia.
  - apply (uniformKnots_periodic_nondecreasing 3 1); lia.
  - unfold Qcle, Qle. simpl. lia.
  - by_computation.
  - by_computation.
Defined.

(** ** Partition of unity *)

Lemma sum_list_wr (l : list Real) (i : Z) (x : Real) :
  (0 ≤ i < Z.of_nat (length l))%Z →
  sum_list (wr l i x) = sum_list l - rd l i + x.
Proof.
  intros Hi. unfold wr, rd.
  assert (Z.to_nat i < length l)%nat as Hlt by lia. clear Hi.
  generalize dependent (Z.to_nat i). clear i.
  induction l as [|y l IH]; intros i Hi; [simpl in Hi; lia|].
  destruct i as [|i]; simpl.
  - ring.
  - simpl in Hi. rewrite IH by lia.
    change ((y :: l) !!! S i) with (l !!! i). ring.
Qed.

Lemma sum_list_array (n : Z) : sum_list (array n) = 0.
Proof.
  unfold array. induction (Z.to_nat n) as [|k IH]; [done|].
  simpl. rewrite IH. ring.
Qed.

(** The inner loop of [basisFuns] keeps [sum N_ + saved]. *)
Lemma basisFuns_inner_sum (left_ right_ : list Real) (j r : Z)
    (N_ N_' : list Real) (saved saved' : Real) :
  (0 ≤ r < Z.of_nat (length N_))%Z →
  basisFuns_inner left_ right_ j r (N_, saved) = Ok (N_', saved') →
  length N_' = length N_
  ∧ sum_list N_' + saved' = sum_list N_ + saved
  ∧ ∀ k, (0 ≤ k)%Z → k ≠ r → rd N_' k = rd N_ k.
Proof.
  intros Hr Hrun. unfold basisFuns_inner in Hrun. inv_bind Hrun as temp Htemp.
  apply rdiv_Ok_inv in Htemp as [Hden ->]. injection Hrun as <- <-.
  split_and!.
  - apply length_wr.
  - rewrite sum_list_wr by done. field. done.
  - intros k Hk Hne. by apply rd_wr_ne; [lia|..].
Qed.

(** The loops of [basisFuns] keep the sum of the basis values at 1. *)
Lemma basisFuns_partition (i : Z) (u : Real) (p : Z) (U N_ : list Real) :
  (0 ≤ p)%Z →
  basisFuns i u p U = Ok N_ →
  Z.of_nat (length N_) = (p + 1)%Z ∧ sum_list N_ = 1.
Proof.
  intros Hp Hrun. unfold basisFuns, for_to in Hrun.
  inv_bind Hrun as st Hst. destruct st as [[N1 left_] right_].
  injection Hrun as ->.
  eapply (for_up_inv_ix
    (λ j '(N_, _, _),
       Z.of_nat (length N_) = (p + 1)%Z ∧ sum_list N_ = 1
       ∧ ∀ k, (j ≤ k)%Z → rd N_ k = 0)) in Hst.
  - simpl in Hst. tauto.
  - intros j [[N0 l0] r0] [[N2 l2] r2] Hj (Hlen & Hsum & Hzero) Hbody.
    unfold basisFuns_outer in Hbody.
    inv_bind Hbody as Ul HUl. inv_bind Hbody as Ur HUr.
    inv_bind Hbody as st' Hinner. destruct st' as [N3 saved].
    injection Hbody as <- _ _.
    eapply (for_up_inv_ix
      (λ r '(N_, saved),
         Z.of_nat (length N_) = (p + 1)%Z ∧ sum_list N_ + saved = 1
         ∧ ∀ k, (j ≤ k)%Z → rd N_ k = 0)) in Hinner.
    + destruct Hinner as (Hlen3 & Hsum3 & Hzero3). split_and!.
      * by rewrite length_wr.
      * rewrite sum_list_wr by lia. rewrite Hzero3 by lia.
        rewrite <- Hsum3. ring.
      * intros k Hk. rewrite rd_wr_ne by lia. apply Hzero3. lia.
    + intros r [N4 s4] [N5 s5] Hr (Hlen4 & Hsum4 & Hzero4) Hstep.
      apply basisFuns_inner_sum in Hstep as (Hlen5 & Hsum5 & Hsame); [|lia].
      split_and!; [lia | by rewrite Hsum5 |].
      intros k Hk. rewrite Hsame by lia. by apply Hzero4.
    + split_and!; [done | rewrite Hsum; ring | done].
  - split_and!.
    + rewrite length_wr, length_array. lia.
    + rewrite sum_list_wr by (rewrite length_array; lia).
      rewrite sum_list_array, rd_array. ring.
    + intros k Hk. rewrite rd_wr_ne by lia. apply rd_array.
Qed.

(** X5. Partition of unity: whenever [basisFuns] returns, on whatever
    span, parameter and knots, the [p + 1] basis values it returns sum
    to 1. *)
Theorem basisFuns_sum_one (i : Z) (u : Real) (p : Z) (U N_ : list Real) :
  (0 ≤ p)%Z →
  basisFuns i u p U = Ok N_ →
  Z.of_nat (length N_) = (p + 1)%Z ∧ sum_list N_ = 1.
Proof. apply basisFuns_partition. Qed.

Lemma basisFuns_sum_one_witness :
  ∃ N_, basisFuns 1 (Examples.q 1 3) 1 (knotVector Examples.periodic) = Ok N_
        ∧ sum_list N_ = 1.
Proof.
  exists [Examples.q 2 3; Examples.q 1 3].
  assert (basisFuns 1 (Examples.q 1 3) 1 (knotVector Examples.periodic)
          = Ok [Examples.q 2 3; Examples.q 1 3]) as H by by_computation.
  split; [exact H|].
  apply (basisFuns_sum_one 1 (Examples.q 1 3) 1 (knotVector Examples.periodic));
    [lia | exact H].
Defined.

(** ** Curves that are not rational *)

Lemma sum_list_drop (l : list Real) (j : Z) :
  (0 ≤ j < Z.of_nat (length l))%Z →
  sum_list (drop (Z.to_nat j) l)
  = rd l j + sum_list (drop (Z.to_nat (j + 1)) l).
Proof.
  intros Hj. destruct (lookup_lt_is_Some_2 l (Z.to_nat j)) as [x Hx]; [lia|].
  rewrite (drop_S l x (Z.to_nat j) Hx).
  replace (Z.to_nat (j + 1)) with (S (Z.to_nat j)) by lia.
  unfold rd. by rewrite (list_lookup_total_correct _ _ _ Hx).
Qed.

Section NonRational.
Context {N : nat} (s : Spline N).
Hypothesis Hunit : non_rational s.

(** With unit weights the second sum of the specification is the sum of
    the basis values, that is 1. *)
Lemma homogeneous_sums_den (fuel : nat) (t : Real) (num : vec Real N)
    (den : Real) :
  homogeneous_sums fuel s t = Ok (num, den) → den = 1.
Proof.
  unfold homogeneous_sums, for_to. intros H. inv_bind H as u Hu.
  destruct (decide _) as [|Hp]; [discriminate|].
  inv_bind H as span Hspan. inv_bind H as N_ HN.
  apply basisFuns_partition in HN as [Hlen Hsum]; [|lia].
  eapply (for_up_inv_ix
    (λ j '(_, den), den + sum_list (drop (Z.to_nat j) N_) = sum_list N_)) in H.
  - simpl in H. rewrite drop_ge in H by lia. simpl in H. rewrite <- Hsum, <- H. ring.
  - intros j [num0 den0] [num1 den1] Hj Hinv Hbody.
    inv_bind Hbody as Pi HPi. injection Hbody as _ <-.
    assert (weight Pi = 1) as ->.
    { apply index_elem_of in HPi.
      by eapply (proj1 (Forall_lookup _ _) Hunit). }
    rewrite <- Hinv, (sum_list_drop N_ j) by lia. ring.
  - change (Z.to_nat 0) with 0%nat. rewrite drop_0. ring.
Qed.

Lemma vmap_div_one (c : vec Real N) : vmap (λ x, x / 1) c = c.
Proof. apply vec_eq. intros i. rewrite vlookup_map. field. intros H; qc_lra. Qed.

(** X6. On a curve whose weights are all 1, [position] returns exactly
    the rational point of the specification (the homogeneous sum divided
    by the sum of the weights times the basis values), with weight 1: the
    two are defined together and agree. *)
Theorem position_non_rational (fuel : nat) (t : Real) (P : Point N) :
  position fuel s t = Ok P
  ↔ rational_point fuel s t = Ok (coords P) ∧ weight P = 1.
Proof.
  split.
  - intros HP. split; [|by eapply position_weight].
    unfold rational_point.
    assert (∃ den, homogeneous_sums fuel s t = Ok (coords P, den))
      as [den Hsums].
    { revert HP. unfold position, homogeneous_sums, curvePoint. intros HP.
      inv_bind HP as u Hu. rewrite Hu, Ok_bind.
      destruct (decide _); [discriminate|].
      inv_bind HP as span Hspan. rewrite Hspan, Ok_bind.
      inv_bind HP as N_ HN. rewrite HN, Ok_bind.
      inv_bind HP as Cw HCw. unfold for_to in *.
      pose proof (curvePoint_sums (controlPoints s) N_ span (getDegree s)
                    (Z.to_nat (getDegree s - 0 + 1)) 0 origin 0) as Hrel.
      rewrite HCw in Hrel.
      change (coords (@origin N)) with (vreplicate N (Q2Qc 0)) in Hrel.
      destruct (for_up _ _ _ (vreplicate N (Q2Qc 0), Q2Qc 0)) as [[num den]|e];
        [|done].
      destruct Hrel as [Hc Hw]. exists den.
      rewrite div_one in HP by done. injection HP as <-. by rewrite Hc. }
    rewrite Hsums, Ok_bind.
    rewrite (homogeneous_sums_den _ _ _ _ Hsums).
    rewrite decide_False by (intros H; qc_lra). by rewrite vmap_div_one.
  - intros [Hr Hw]. unfold rational_point in Hr.
    inv_bind Hr as sums Hsums. destruct sums as [num den].
    pose proof (homogeneous_sums_den _ _ _ _ Hsums) as ->.
    rewrite decide_False in Hr by (intros H; qc_lra).
    rewrite vmap_div_one in Hr. injection Hr as ->.
    rewrite (position_homogeneous_sum _ _ _ _ _ Hsums).
    by rewrite <- Hw, Vector_eta.
Qed.
End NonRational.

Lemma position_non_rational_witness :
  rational_point 1 Examples.segment (Examples.q 1 2) = Ok [# Examples.q 1 2].
Proof.
  refine (proj1 (proj1 (position_non_rational Examples.segment _ 1
                          (Examples.q 1 2) (point [# Examples.q 1 2])) _)).
  - unfold non_rational. simpl. repeat constructor.
  - by_computation.
Defined.

(** ** Parameters outside the domain *)

(** X7. A clamped curve is constant outside its domain: with
    [minKnot ≤ maxKnot], a parameter below [minKnot] is evaluated at
    [minKnot], a parameter above [maxKnot] at [maxKnot], and a parameter
    of the domain is left as it is. *)
Theorem position_clamps_parameter {N : nat} (fuel : nat) (s : Spline N)
    (minKnot maxKnot t : Real) :
  isClamped s = true →
  front (knotVector s) = Ok minKnot →
  back (knotVector s) = Ok maxKnot →
  minKnot ≤ maxKnot →
  (t ≤ minKnot → position fuel s t = position fuel s minKnot)
  ∧ (maxKnot ≤ t → position fuel s t = position fuel s maxKnot)
  ∧ (minKnot ≤ t ≤ maxKnot → adjustParameter fuel s t = Ok t).
Proof.
  intros Hcl Hfront Hback Hle.
  assert (∀ x, adjustParameter fuel s x
               = Ok (std_min (std_max x minKnot) maxKnot)) as Hadj.
  { intros x. unfold adjustParameter. by rewrite Hfront, Hback, Hcl. }
  assert (∀ x y, adjustParameter fuel s x = adjustParameter fuel s y →
                 position fuel s x = position fuel s y) as Hpos.
  { intros x y Hxy. unfold position. by rewrite Hxy. }
  split_and!.
  - intros Ht. apply Hpos. rewrite !Hadj. f_equal. unfold std_max, std_min.
    repeat destruct (decide _); first [done | apply Qc_eq_Qeq; qc_lra].
  - intros Ht. apply Hpos. rewrite !Hadj. f_equal. unfold std_max, std_min.
    repeat destruct (decide _); first [done | apply Qc_eq_Qeq; qc_lra].
  - intros Ht. rewrite Hadj. f_equal. unfold std_max, std_min.
    repeat destruct (decide _); first [done | apply Qc_eq_Qeq; qc_lra].
Qed.

Lemma position_clamps_parameter_witness :
  position 1 Examples.segment (Examples.q (-5) 1) = position 1 Examples.segment 0.
Proof.
  apply (position_clamps_parameter 1 Examples.segment 0 1 (Examples.q (-5) 1));
    [reflexivity | by_computation | by_computation | | ];
    unfold Qcle, Qle; simpl; lia.
Defined.

Lemma wrap_up_zero (fuel : nat) (m u : Real) :
  u < m → wrap_up fuel m 0 u = Err OutOfFuel.
Proof.
  intros Hu. induction fuel as [|fuel IH]; [done|]. simpl.
  rewrite decide_True by done. by replace (u + 0) with u by ring.
Qed.

Lemma wrap_down_zero (fuel : nat) (m u : Real) :
  m ≤ u → wrap_down fuel m 0 u = Err OutOfFuel.
Proof.
  intros Hu. induction fuel as [|fuel IH]; [done|]. simpl.
  rewrite decide_True by done. by replace (u - 0) with u by ring.
Qed.

(** X8. On a curve that is not clamped and whose domain has width zero
    (first knot = last knot), the wrap loops of [adjustParameter] never
    end, whatever the parameter: no amount of fuel gives an outcome, for
    [position] and for [derivative] alike. *)
Theorem zero_width_never_returns {N : nat} (s : Spline N) (m : Real) :
  isClamped s = false →
  front (knotVector s) = Ok m →
  back (knotVector s) = Ok m →
  ∀ fuel t,
    adjustParameter fuel s t = Err OutOfFuel
    ∧ position fuel s t = Err OutOfFuel
    ∧ ∀ d, (0 ≤ d)%Z → derivative fuel s t d = Err OutOfFuel.
Proof.
  intros Hcl Hfront Hback fuel t.
  assert (adjustParameter fuel s t = Err OutOfFuel) as Hadj.
  { unfold adjustParameter. rewrite Hfront, Hback, Hcl. simpl.
    replace (fabs (m - m)) with (Q2Qc 0).
    2:{ replace (m - m) with (Q2Qc 0) by ring. by_computation. }
    destruct (decide (t < m)) as [Hlt|Hge].
    - by rewrite wrap_up_zero.
    - destruct fuel as [|fuel]; [done|]. cbn [wrap_up].
      rewrite decide_False by done. rewrite Ok_bind.
      apply wrap_down_zero. qc_lra. }
  split_and!; [done | |].
  - unfold position. by rewrite Hadj.
  - intros d Hd. unfold derivative. rewrite decide_False by lia.
    by rewrite Hadj.
Qed.

Lemma zero_width_never_returns_witness :
  position 100 (setClamped false Examples.short_knots) 0 = Err OutOfFuel.
Proof.
  apply (zero_width_never_returns (setClamped false Examples.short_knots) 0);
    reflexivity.
Defined.

(** ** Derivatives of high order *)

(** X9. A derivative of order greater than the degree is the zero vector
    (with weight 1): [curveDerivs] only fills the entries of [CK] up to
    the degree. *)
Theorem derivative_above_degree {N : nat} (fuel : nat) (s : Spline N) (t : Real)
    (d : Z) (P : Point N) :
  (getDegree s < d)%Z →
  derivative fuel s t d = Ok P → P = origin.
Proof.
  intros Hd H. unfold derivative in H.
  destruct (decide _); [discriminate|].
  inv_bind H as u Hu. inv_bind H as CK HCK.
  unfold curveDerivs in HCK. destruct (decide _); [discriminate|].
  inv_bind HCK as span Hspan. inv_bind HCK as nders Hnders.
  unfold for_to in HCK.
  eapply (for_up_inv_ix (λ _ CK, CK !! Z.to_nat d = Some (@origin N))) in HCK.
  - apply index_elem_of in H. congruence.
  - intros k CK1 CK2 Hk H1 Hinner.
    eapply (for_up_inv (λ CK, CK !! Z.to_nat d = Some (@origin N)));
      [| exact H1 | exact Hinner].
    intros j CK3 CK4 H3 Hbody. unfold curveDerivs_body in Hbody.
    inv_bind Hbody as Pj HPj. injection Hbody as <-.
    rewrite list_lookup_insert_ne by lia. done.
  - apply lookup_replicate_2. lia.
Qed.

Lemma derivative_above_degree_witness :
  point [# Examples.q 0 1] = (@origin 1).
Proof.
  apply (derivative_above_degree 1 Examples.cubic (Examples.q 1 2) 4);
    [simpl; lia | by_computation].
Defined.

(** ** Evaluation inside a knot span *)

Lemma Qcmult_nonneg (x y : Real) : 0 ≤ x → 0 ≤ y → 0 ≤ x * y.
Proof.
  intros Hx Hy. replace (Q2Qc 0) with (0 * y) by ring.
  by apply Qcmult_le_compat_r.
Qed.

Lemma Qcdiv_nonneg (x y : Real) : 0 ≤ x → 0 < y → 0 ≤ x / y.
Proof.
  intros Hx Hy. rewrite <- (div_zero_l y). by apply Qcdiv_le_mono.
Qed.

Lemma rd_wr_nonneg (a : list Real) (i : Z) (x : Real) :
  (∀ k, 0 ≤ rd a k) → 0 ≤ x → ∀ k, 0 ≤ rd (wr a i x) k.
Proof.
  intros Ha Hx k. unfold rd, wr. rewrite list_lookup_total_insert.
  destruct (decide _); [done | apply Ha].
Qed.

Section InSpan.
Context (p n span : Z) (U : list Real) (u x y : Real).
Hypothesis Hp : (0 ≤ p)%Z.
Hypothesis Hspan : (p ≤ span ≤ n)%Z.
Hypothesis Hlen : Z.of_nat (length U) = (n + p + 2)%Z.
Hypothesis Hsorted : nondecreasing U.
Hypothesis Hx : at_ U span = Ok x.
Hypothesis Hy : at_ U (span + 1) = Ok y.
Hypothesis Hxu : x ≤ u.
Hypothesis Huy : u < y.

(** Inside the span every division of [basisFuns] has a positive divisor
    and every basis value is non-negative. *)
Lemma basisFuns_in_span :
  ∃ N_, basisFuns span u p U = Ok N_ ∧ ∀ k, 0 ≤ rd N_ k.
Proof.
  unfold basisFuns, for_to.
  destruct (for_up_ind
    (λ j '(N_, left_, right_),
       (∀ k, 0 ≤ rd N_ k)
       ∧ length left_ = Z.to_nat (p + 1) ∧ length right_ = Z.to_nat (p + 1)
       ∧ ∀ k, (1 ≤ k < j)%Z → 0 ≤ rd left_ k ∧ 0 < rd right_ k)
    (basisFuns_outer span u U) 1 (Z.to_nat (p - 1 + 1))
    (wr (array (p + 1)) 0 1, array (p + 1), array (p + 1)))
    as ([[N_ left_] right_] & -> & HN & _).
  - intros j [[N_ left_] right_] Hj (HN & Hll & Hlr & Hlr').
    unfold basisFuns_outer.
    destruct (at_in_range U (span + 1 - j)) as [Ul HUl]; [lia|].
    destruct (at_in_range U (span + j)) as [Ur HUr]; [lia|].
    rewrite HUl, Ok_bind, HUr, Ok_bind.
    pose proof (nondecreasing_at U (span + 1 - j) span Ul x Hsorted
                  ltac:(lia) HUl Hx) as Hl.
    pose proof (nondecreasing_at U (span + 1) (span + j) y Ur Hsorted
                  ltac:(lia) Hy HUr) as Hr.
    assert (∀ k, (1 ≤ k < j + 1)%Z →
                 0 ≤ rd (wr left_ j (u - Ul)) k
                 ∧ 0 < rd (wr right_ j (Ur - u)) k) as Hboth.
    { intros k Hk. destruct (decide (k = j)) as [->|Hne].
      - rewrite !rd_wr_eq by lia. split; qc_lra.
      - rewrite !rd_wr_ne by lia. apply Hlr'. lia. }
    destruct (for_up_ind
      (λ (_ : Z) '(N_, saved), (∀ k, 0 ≤ rd N_ k) ∧ 0 ≤ saved)
      (basisFuns_inner (wr left_ j (u - Ul)) (wr right_ j (Ur - u)) j)
      0 (Z.to_nat j) (N_, 0)) as ([N1 saved] & -> & HN1 & Hsaved).
    + intros r [N0 s0] Hrange [HN0 Hs0]. unfold basisFuns_inner.
      destruct (Hboth (r + 1)%Z ltac:(lia)) as [_ Hright].
      destruct (Hboth (j - r)%Z ltac:(lia)) as [Hleft _].
      assert (0 < rd (wr right_ j (Ur - u)) (r + 1)
                  + rd (wr left_ j (u - Ul)) (j - r)) as Hden by qc_lra.
      rewrite rdiv_Ok by (intros H; qc_lra). rewrite Ok_bind.
      eexists. split; [reflexivity|].
      assert (0 ≤ rd N0 r / (rd (wr right_ j (Ur - u)) (r + 1)
                             + rd (wr left_ j (u - Ul)) (j - r))) as Htemp.
      { apply Qcdiv_nonneg; [apply HN0 | done]. }
      split.
      * apply rd_wr_nonneg; [done|].
        pose proof (Qcmult_nonneg _ _ (Qclt_le_weak _ _ Hright) Htemp).
        qc_lra.
      * by apply Qcmult_nonneg.
    + split; [done | apply Qcle_refl].
    + rewrite Ok_bind. eexists. split; [reflexivity|].
      split_and!; [by apply rd_wr_nonneg | by rewrite length_wr
                   | by rewrite length_wr | done].
  - split_and!; [|apply length_array | apply length_array | intros; lia].
    apply rd_wr_nonneg; [|by_computation].
    intros k. rewrite rd_array. apply Qcle_refl.
  - rewrite Ok_bind. by exists N_.
Qed.
End InSpan.

(** X10. Inside a knot span the basis values are non-negative: on
    non-decreasing knots of the right length, for a span of
    [[degree, n]] with [U[span] ≤ u < U[span+1]], [basisFuns] returns
    (no division by zero, no access out of range) and none of the values
    it returns is negative. *)
Theorem basisFuns_nonnegative (p n span : Z) (U : list Real) (u x y : Real) :
  (0 ≤ p)%Z → (p ≤ span ≤ n)%Z →
  Z.of_nat (length U) = (n + p + 2)%Z → nondecreasing U →
  at_ U span = Ok x → at_ U (span + 1) = Ok y → x ≤ u → u < y →
  ∃ N_, basisFuns span u p U = Ok N_
        ∧ ∀ k, (0 ≤ k ≤ p)%Z → 0 ≤ rd N_ k.
Proof.
  intros. destruct (basisFuns_in_span p n span U u x y) as (N_ & HN & Hpos);
    try done.
  exists N_. split; [done|]. intros k _. apply Hpos.
Qed.

Lemma basisFuns_nonnegative_witness :
  ∃ N_, basisFuns 1 (Examples.q 1 3) 1 (knotVector Examples.periodic) = Ok N_
        ∧ ∀ k, (0 ≤ k ≤ 1)%Z → 0 ≤ rd N_ k.
Proof.
  apply (basisFuns_nonnegative 1 2 1 (knotVector Examples.periodic)
           (Examples.q 1 3) (Examples.q 1 4) (Examples.q 1 2)).
  - lia.
  - lia.
  - reflexivity.
  - apply (uniformKnots_periodic_nondecreasing 3 1); lia.
  - by_computation.
  - by_computation.
  - unfold Qcle, Qle. simpl. lia.
  - reflexivity.
Defined.

(** ** Evaluation inside the domain *)

Lemma sum_list_app (l k : list Real) : sum_list (l ++ k) = sum_list l + sum_list k.
Proof. induction l as [|x l IH]; simpl; [ring | rewrite IH; ring]. Qed.

Lemma sum_list_take (l : list Real) (j : Z) :
  (0 ≤ j < Z.of_nat (length l))%Z →
  sum_list (take (Z.to_nat (j + 1)) l) = sum_list (take (Z.to_nat j) l) + rd l j.
Proof.
  intros Hj. destruct (lookup_lt_is_Some_2 l (Z.to_nat j)) as [x Hx]; [lia|].
  replace (Z.to_nat (j + 1)) with (S (Z.to_nat j)) by lia.
  rewrite (take_S_r l (Z.to_nat j) x Hx), sum_list_app.
  unfold rd. rewrite (list_lookup_total_correct _ _ _ Hx). simpl. ring.
Qed.

Section InDomain.
Context {N : nat} (s : Spline N) (fuel : nat) (t Up Un1 : Real).
Hypothesis Hvalid : valid_configuration s.
Hypothesis HUp : at_ (knotVector s) (getDegree s) = Ok Up.
Hypothesis HUn1 :
  at_ (knotVector s) (Z.of_nat (length (controlPoints s)) - 1 + 1) = Ok Un1.
Hypothesis Hinside : Up < t < Un1.
Hypothesis Hfuel :
  (Z.of_nat (length (controlPoints s)) - getDegree s ≤ Z.of_nat fuel)%Z.

(** A parameter of the domain is left as it is. *)
Lemma adjustParameter_inside : adjustParameter fuel s t = Ok t.
Proof.
  destruct Hvalid as (Hp & Hn & Hlen & Hsorted & _).
  destruct (at_in_range (knotVector s) 0) as [mn Hmn]; [lia|].
  destruct (at_in_range (knotVector s) (Z.of_nat (length (knotVector s)) - 1))
    as [mx Hmx]; [lia|].
  pose proof (nondecreasing_at (knotVector s) 0 (getDegree s) mn Up Hsorted
                ltac:(lia) Hmn HUp) as H1.
  pose proof (nondecreasing_at (knotVector s)
                (Z.of_nat (length (controlPoints s)) - 1 + 1)
                (Z.of_nat (length (knotVector s)) - 1) Un1 mx Hsorted
                ltac:(lia) HUn1 Hmx) as H2.
  unfold adjustParameter.
  rewrite (front_at _ _ Hmn), (back_at _ _ Hmx), !Ok_bind.
  destruct (isClamped s).
  - f_equal. unfold std_max. rewrite decide_False by qc_lra.
    unfold std_min. by rewrite decide_False by qc_lra.
  - destruct fuel as [|fuel']; [lia|]. cbn [wrap_up].
    rewrite decide_False by qc_lra. rewrite Ok_bind. cbn [wrap_down].
    by rewrite decide_False by qc_lra.
Qed.

(** The search ends on a span that holds the parameter. *)
Lemma findSpan_inside :
  ∃ span x y,
    findSpan fuel (Z.of_nat (length (controlPoints s)) - 1) (getDegree s) t
      (knotVector s) = Ok span
    ∧ (getDegree s ≤ span ≤ Z.of_nat (length (controlPoints s)) - 1)%Z
    ∧ at_ (knotVector s) span = Ok x ∧ at_ (knotVector s) (span + 1) = Ok y
    ∧ x ≤ t < y.
Proof.
  destruct Hvalid as (Hp & Hn & Hlen & Hsorted & _).
  unfold findSpan. rewrite HUp, Ok_bind. rewrite decide_False by qc_lra.
  rewrite HUn1, Ok_bind. rewrite decide_False by qc_lra.
  destruct (findSpan_while_spec fuel t (knotVector s) (getDegree s)
              (Z.of_nat (length (controlPoints s)) - 1 + 1) Up Un1)
    as (span & x & y & Hrun & Hspan & Hx & Hy & Hxy);
    try done; try lia; try qc_lra.
  exists span, x, y. split_and!; try done; try lia; qc_lra.
Qed.

(** X11. On a valid configuration, a parameter strictly inside the
    domain ([knots[degree] < t < knots[numControlPoints]]) always gets a
    point: the search ends, no knot or control point is read out of
    range and no division is by zero, clamped or not. *)
Theorem position_inside_domain : ∃ P, position fuel s t = Ok P.
Proof.
  pose proof Hvalid as (Hp & Hn & Hlen & Hsorted & _).
  unfold position. rewrite adjustParameter_inside, Ok_bind.
  unfold curvePoint. rewrite decide_False by lia.
  destruct findSpan_inside as (span & x & y & -> & Hspan & Hx & Hy & Hxy).
  rewrite Ok_bind.
  destruct (basisFuns_in_span (getDegree s)
              (Z.of_nat (length (controlPoints s)) - 1) span (knotVector s)
              t x y) as (N_ & -> & _); try done; try lia; try qc_lra.
  rewrite Ok_bind. unfold for_to.
  match goal with |- ∃ P, for_up ?body ?lo ?count ?init ≫= _ = _ =>
    destruct (for_up_ind (λ _ (Cw : Point N), weight Cw = 1) body lo count init)
      as (Cw & -> & HCw)
  end.
  - intros j Cw Hj Hw.
    destruct (lookup_lt_is_Some_2 (controlPoints s)
                (Z.to_nat (span - getDegree s + j))) as [Pj HPj]; [lia|].
    unfold index. rewrite decide_True by lia. rewrite HPj, Ok_bind.
    eexists. split; [reflexivity | done].
  - done.
  - rewrite Ok_bind, div_one by done. by exists Cw.
Qed.
End InDomain.

Lemma position_inside_domain_witness :
  ∃ P, position 2 Examples.periodic (Examples.q 1 3) = Ok P.
Proof.
  apply (position_inside_domain Examples.periodic 2 (Examples.q 1 3)
           (Examples.q 1 4) (Examples.q 3 4)).
  - apply validb_valid. vm_compute. reflexivity.
  - by_computation.
  - by_computation.
  - split; reflexivity.
  - simpl. lia.
Defined.

(** ** Convex hull *)

(** A sum of values of [[lo, hi]] weighted by non-negative basis values
    stays within [lo] and [hi] times the sum of these basis values. *)
Lemma curvePoint_sum_bounds {N : nat} (i : fin N) (lo hi : Real) (p span : Z)
    (Pw : list (Point N)) (N_ : list Real) (Cw : Point N) :
  (0 ≤ p)%Z → Z.of_nat (length N_) = (p + 1)%Z →
  (∀ k, 0 ≤ rd N_ k) →
  (∀ j Q, (0 ≤ j ≤ p)%Z → index Pw (span - p + j) = Ok Q →
          weight Q = 1 ∧ lo ≤ coords Q !!! i ≤ hi) →
  for_to (λ j Cw,
            Pi ← index Pw (span - p + j);
            Ok (add_assign Cw (scale (scale Pi (weight Pi)) (rd N_ j))))
    0 p origin = Ok Cw →
  lo * sum_list N_ ≤ coords Cw !!! i ≤ hi * sum_list N_.
Proof.
  intros Hp Hlen Hpos Hpts Hrun. unfold for_to in Hrun.
  eapply (for_up_inv_ix
    (λ j (Cw : Point N),
       lo * sum_list (take (Z.to_nat j) N_) ≤ coords Cw !!! i
       ∧ coords Cw !!! i ≤ hi * sum_list (take (Z.to_nat j) N_))) in Hrun.
  - rewrite take_ge in Hrun by lia. done.
  - intros j C0 C1 Hj [Hlo Hhi] Hbody. inv_bind Hbody as Q HQ.
    injection Hbody as <-.
    destruct (Hpts j Q ltac:(lia) HQ) as (-> & Hc1 & Hc2).
    rewrite sum_list_take by lia.
    unfold add_assign, scale. simpl.
    rewrite vlookup_zip_with, !vlookup_map.
    pose proof (Qcmult_le_compat_r _ _ _ Hc1 (Hpos j)) as H1.
    pose proof (Qcmult_le_compat_r _ _ _ Hc2 (Hpos j)) as H2.
    split; qc_push; lra.
  - simpl. rewrite vlookup_replicate. split; qc_lra.
Qed.

(** X12. Convex hull, coordinate by coordinate.  On a valid
    configuration with unit weights and for a parameter strictly inside
    the domain, each coordinate of [position(t)] lies between the
    smallest and the largest value of that coordinate over the
    [degree + 1] control points that influence the span of [t]. *)
Theorem position_within_hull {N : nat} (s : Spline N) (fuel : nat)
    (t Up Un1 lo hi : Real) (i : fin N) (span : Z) (P : Point N) :
  valid_configuration s → non_rational s →
  at_ (knotVector s) (getDegree s) = Ok Up →
  at_ (knotVector s) (Z.of_nat (length (controlPoints s)) - 1 + 1) = Ok Un1 →
  Up < t < Un1 →
  (Z.of_nat (length (controlPoints s)) - getDegree s ≤ Z.of_nat fuel)%Z →
  findSpan fuel (Z.of_nat (length (controlPoints s)) - 1) (getDegree s) t
    (knotVector s) = Ok span →
  (∀ j Q, (0 ≤ j ≤ getDegree s)%Z →
          index (controlPoints s) (span - getDegree s + j) = Ok Q →
          lo ≤ coords Q !!! i ≤ hi) →
  position fuel s t = Ok P →
  lo ≤ coords P !!! i ≤ hi.
Proof.
  intros Hvalid Hunit HUp HUn1 Hinside Hfuel Hspan Hpts HP.
  pose proof Hvalid as (Hp & Hn & Hlen & Hsorted & _).
  unfold position in HP.
  rewrite (adjustParameter_inside s fuel t Up Un1) in HP by done.
  rewrite Ok_bind in HP. unfold curvePoint in HP.
  rewrite decide_False in HP by lia.
  destruct (findSpan_inside s fuel t Up Un1)
    as (span' & x & y & Hspan' & Hrange & Hx & Hy & Hxy); try done.
  rewrite Hspan in Hspan'. injection Hspan' as <-.
  rewrite Hspan, Ok_bind in HP.
  destruct (basisFuns_in_span (getDegree s)
              (Z.of_nat (length (controlPoints s)) - 1) span (knotVector s)
              t x y) as (N_ & HN & Hpos); try done; try lia; try qc_lra.
  rewrite HN, Ok_bind in HP. inv_bind HP as Cw HCw.
  destruct (basisFuns_partition _ _ _ _ _ Hp HN) as [HlenN Hsum].
  pose proof (curvePoint_sum_bounds i lo hi (getDegree s) span
                (controlPoints s) N_ Cw Hp HlenN Hpos) as Hbounds.
  assert (weight Cw = 1) as Hw.
  { unfold for_to in HCw.
    eapply (for_up_inv (λ Cw : Point N, weight Cw = 1)); [| |exact HCw]; [|done].
    intros j C0 C1 H0 Hbody. inv_bind Hbody as Q HQ. by injection Hbody as <-. }
  rewrite div_one in HP by done. injection HP as <-.
  rewrite Hsum in Hbounds.
  destruct Hbounds as [H1 H2]; [|done|split; qc_lra].
  intros j Q Hj HQ. split; [|by eapply Hpts].
  apply index_elem_of in HQ. by eapply (proj1 (Forall_lookup _ _) Hunit).
Qed.

Lemma position_within_hull_witness :
  Examples.q 0 1 ≤ coords (point [# Examples.q 1 3] : Point 1) !!! 0%fin
  ≤ Examples.q 1 1.
Proof.
  apply (position_within_hull Examples.periodic 2 (Examples.q 1 3)
           (Examples.q 1 4) (Examples.q 3 4) (Examples.q 0 1) (Examples.q 1 1)
           0%fin 1 (point [# Examples.q 1 3])).
  - apply validb_valid. vm_compute. reflexivity.
  - unfold non_rational. simpl. repeat constructor.
  - by_computation.
  - by_computation.
  - split; reflexivity.
  - simpl. lia.
  - by_computation.
  - intros j Q Hj HQ. change (getDegree Examples.periodic) with 1%Z in *.
    assert (j = 0 ∨ j = 1)%Z as [-> | ->] by lia;
      vm_compute in HQ; injection HQ as <-; split; by vm_compute.
  - by_computation.
Defined.

(** ** More on the adaptive Simpson integrator *)

Module SimpsonMore.
Import Simpson.

Ltac lit_norm :=
  replace (Real_of_int 2) with (1 + 1) in * by by_computation;
  replace (Real_of_int 4) with ((1 + 1) * (1 + 1)) in * by by_computation;
  replace (Real_of_int 6) with ((1 + 1) * (1 + 1 + 1)) in * by by_computation;
  replace (Real_of_int 12) with ((1 + 1) * (1 + 1) * (1 + 1 + 1)) in *
    by by_computation;
  replace (Real_of_int 15) with ((1 + 1 + 1) * (1 + 1 + 1 + 1 + 1)) in *
    by by_computation.

Ltac lit_nonzero := repeat split; intros ?; qc_lra.

Section Exact.
Context (f F : Real → Real).
(** The three-point rule is exact for [f], of primitive [F], on every
    interval. *)
Hypothesis Hrule : ∀ a b,
  (b - a) / Real_of_int 6 * (f a + Real_of_int 4 * f ((a + b) / Real_of_int 2) + f b)
  = F b - F a.

Lemma refine_exact (a b : Real) :
  let r := refine f a b (f a) (f b) (f ((a + b) / Real_of_int 2)) in
  Sleft r = F (c r) - F a ∧ Sright r = F b - F (c r) ∧ S2 r = F b - F a.
Proof.
  cbv zeta. unfold refine. cbn [Sleft Sright S2 c].
  assert ((b - a) / Real_of_int 12
          = ((a + b) / Real_of_int 2 - a) / Real_of_int 6) as Hl.
  { lit_norm. field. lit_nonzero. }
  assert ((b - a) / Real_of_int 12
          = (b - (a + b) / Real_of_int 2) / Real_of_int 6) as Hr.
  { lit_norm. field. lit_nonzero. }
  assert ((b - a) / Real_of_int 12
          * (f a + Real_of_int 4 * f ((a + (a + b) / Real_of_int 2) / Real_of_int 2)
             + f ((a + b) / Real_of_int 2))
          = F ((a + b) / Real_of_int 2) - F a) as H1.
  { rewrite Hl. apply Hrule. }
  assert ((b - a) / Real_of_int 12
          * (f ((a + b) / Real_of_int 2)
             + Real_of_int 4 * f (((a + b) / Real_of_int 2 + b) / Real_of_int 2)
             + f b)
          = F b - F ((a + b) / Real_of_int 2)) as H2.
  { rewrite Hr. apply Hrule. }
  split_and!; [done | done|]. rewrite H1, H2. ring.
Qed.

Lemma aux_rec_exact (k : nat) (a b eps S : Real) (bottom : Z) :
  S = F b - F a →
  aux_rec k f a b eps S (f a) (f b) (f ((a + b) / Real_of_int 2)) bottom
  = F b - F a.
Proof.
  revert a b eps S bottom.
  induction k as [|k IH]; intros a b eps S bottom HS;
    cbn [aux_rec]; cbv zeta;
    destruct (refine_exact a b) as (Hl & Hr & H2).
  - rewrite H2, HS. destruct (accept _ _ _ _); unfold Qcdiv; ring.
  - destruct (accept _ _ _ _).
    + rewrite H2, HS. unfold Qcdiv; ring.
    + rewrite (IH a (c (refine f a b (f a) (f b) (f ((a + b) / Real_of_int 2))))
                 _ _ _ Hl).
      rewrite (IH (c (refine f a b (f a) (f b) (f ((a + b) / Real_of_int 2)))) b
                 _ _ _ Hr).
      ring.
Qed.

Lemma integrate_exact (I : Simpson) (a b : Real) : integrate I f a b = F b - F a.
Proof. unfold integrate, aux. apply aux_rec_exact, Hrule. Qed.

Lemma integrate_exact_shape (I : Simpson) (a b : Real) :
  0 ≤ getAccuracy I → integrate_shape I f a b = mkShape 1 0.
Proof.
  intros Heps. unfold integrate_shape. rewrite SimpsonFacts.aux_shape_unfold.
  cbv zeta. destruct (refine_exact a b) as (_ & _ & ->). rewrite Hrule.
  unfold accept.
  rewrite (bool_decide_eq_true_2 (fabs _ ≤ _)); [by rewrite orb_true_r|].
  replace (F b - F a - (F b - F a)) with (Q2Qc 0) by ring.
  unfold fabs.
  replace (Qcabs 0) with (Q2Qc 0) by (apply Qc_is_canon; reflexivity).
  qc_push. unfold inject_Z. lra.
Qed.
End Exact.

(** X13. The integrator is exact on polynomials of degree at most 3: for
    every accuracy and every depth budget, the integral of
    [c0 + c1 x + c2 x^2 + c3 x^3] over [[a, b]] is the difference of its
    primitive at [b] and at [a]; and when the accuracy is not negative
    this is found without any recursion. *)
Theorem integrate_cubic_exact (I : Simpson) (c0 c1 c2 c3 a b : Real) :
  integrate I (peval [c0; c1; c2; c3]) a b
  = peval (pprimitive [c0; c1; c2; c3]) b - peval (pprimitive [c0; c1; c2; c3]) a
  ∧ (0 ≤ getAccuracy I →
     integrate_shape I (peval [c0; c1; c2; c3]) a b = mkShape 1 0).
Proof.
  assert (∀ a b,
    (b - a) / Real_of_int 6
    * (peval [c0; c1; c2; c3] a
       + Real_of_int 4 * peval [c0; c1; c2; c3] ((a + b) / Real_of_int 2)
       + peval [c0; c1; c2; c3] b)
    = peval (pprimitive [c0; c1; c2; c3]) b
      - peval (pprimitive [c0; c1; c2; c3]) a) as Hrule.
  { intros x y. unfold pprimitive. cbn [peval pprimitive_from].
    change (1 + 1)%Z with 2%Z. change (2 + 1)%Z with 3%Z.
    change (3 + 1)%Z with 4%Z.
    replace (Real_of_int 1) with 1 by by_computation.
    replace (Real_of_int 3) with (1 + 1 + 1) by by_computation.
    lit_norm. field. lit_nonzero. }
  split.
  - by apply (integrate_exact _ (peval (pprimitive [c0; c1; c2; c3]))).
  - by apply (integrate_exact_shape _ (peval (pprimitive [c0; c1; c2; c3]))).
Qed.

Lemma integrate_cubic_exact_witness :
  integrate_shape default (peval [0; 1; 0; 0]) 0 (1 + 1) = mkShape 1 0.
Proof.
  apply (integrate_cubic_exact default 0 1 0 0 0 (1 + 1)).
  unfold Qcle, Qle. simpl. lia.
Defined.

Lemma refine_swap (f : Real → Real) (a b fa fb fc : Real) :
  let r := refine f a b fa fb fc in
  refine f b a fb fa fc
  = mkRefinement (c r) (fe r) (fd r) (- Sright r) (- Sleft r) (- S2 r).
Proof.
  cbv zeta. unfold refine. cbn [c fd fe Sleft Sright S2].
  assert ((b + a) / Real_of_int 2 = (a + b) / Real_of_int 2) as -> by
    (unfold Qcdiv; ring).
  assert ((b + (a + b) / Real_of_int 2) / Real_of_int 2
          = ((a + b) / Real_of_int 2 + b) / Real_of_int 2) as -> by
    (unfold Qcdiv; ring).
  assert (((a + b) / Real_of_int 2 + a) / Real_of_int 2
          = (a + (a + b) / Real_of_int 2) / Real_of_int 2) as -> by
    (unfold Qcdiv; ring).
  f_equal; unfold Qcdiv; ring.
Qed.

Lemma accept_swap (bottom : Z) (eps S S2 : Real) :
  accept bottom eps (- S) (- S2) = accept bottom eps S S2.
Proof.
  unfold accept, fabs. f_equal.
  replace (- S2 - - S) with (- (S2 - S)) by ring. by rewrite Qcabs_opp.
Qed.

Lemma aux_rec_swap (k : nat) (f : Real → Real) (a b eps S fa fb fc : Real)
    (bottom : Z) :
  aux_rec k f b a eps (- S) fb fa fc bottom
  = - aux_rec k f a b eps S fa fb fc bottom.
Proof.
  revert a b eps S fa fb fc bottom.
  induction k as [|k IH]; intros a b eps S fa fb fc bottom;
    cbn [aux_rec]; cbv zeta; rewrite refine_swap; cbv zeta;
    cbn [c fd fe Sleft Sright S2]; rewrite accept_swap.
  - destruct (accept _ _ _ _); unfold Qcdiv; ring.
  - destruct (accept _ _ _ _); [unfold Qcdiv; ring|].
    rewrite !IH. ring.
Qed.

(** X14. Swapping the bounds changes the sign of the integral and
    nothing else: the same intervals are accepted and refined. *)
Theorem integrate_swap (I : Simpson) (f : Real → Real) (a b : Real) :
  integrate I f b a = - integrate I f a b.
Proof.
  unfold integrate, aux.
  assert ((b + a) / Real_of_int 2 = (a + b) / Real_of_int 2) as -> by
    (unfold Qcdiv; ring).
  rewrite <- aux_rec_swap. f_equal. unfold Qcdiv; ring.
Qed.

End SimpsonMore.

(** ** Primitives of polynomials *)

Lemma pderive_from_pprimitive_from (k : Z) (c : list Real) :
  (1 ≤ k)%Z → pderive_from k (pprimitive_from k c) = c.
Proof.
  revert k. induction c as [|ck c IH]; intros k Hk; [done|].
  simpl. rewrite IH by lia. f_equal. field. apply Real_of_int_nonzero. lia.
Qed.

(** [pprimitive] is a primitive: its derivative is the polynomial. *)
Lemma pderive_pprimitive (c : list Real) : pderive (pprimitive c) = c.
Proof. unfold pprimitive, pderive. by apply pderive_from_pprimitive_from. Qed.

(** ** Products and comparisons of vectors *)

Ltac vec_open u v :=
  destruct u as [cu wu]; destruct v as [cv wv];
  inv_vec cu; inv_vec cv; intros;
  cbv -[Qcplus Qcminus Qcmult Qcdiv Qcopp Q2Qc Qcinv].

(** Equations between scalars, and between vectors. *)
Ltac vec_ring u v := vec_open u v; ring.
Ltac vec_rings u v :=
  vec_open u v; f_equal; apply vec_to_list_inj2;
  cbv -[Qcplus Qcminus Qcmult Qcdiv Qcopp Q2Qc Qcinv];
  repeat (apply (f_equal2 cons); [ring|]); reflexivity.

(** X15. The cross product of two vectors of dimension 3 is orthogonal
    to both, changes sign when they are swapped, and has weight 1
    whatever their weights. *)
Theorem cross3_orthogonal (u v : Point 3) :
  dot (cross3 u v) u = 0
  ∧ dot (cross3 u v) v = 0
  ∧ cross3 v u = opp (cross3 u v)
  ∧ weight (cross3 u v) = 1.
Proof.
  split_and!; [| | |done].
  - vec_ring u v.
  - vec_ring u v.
  - vec_rings u v.
Qed.

(** X16. The cross product of dimension 7 is a cross product: it is
    orthogonal to both operands, changes sign when they are swapped, and
    its squared length is [|u|^2 |v|^2 - (u . v)^2]. *)
Theorem cross7_orthogonal (u v : Point 7) :
  dot (cross7 u v) u = 0
  ∧ dot (cross7 u v) v = 0
  ∧ cross7 v u = opp (cross7 u v)
  ∧ dot (cross7 u v) (cross7 u v) = dot u u * dot v v - dot u v * dot u v.
Proof.
  split_and!.
  - vec_ring u v.
  - vec_ring u v.
  - vec_rings u v.
  - vec_ring u v.
Qed.

(** X17. The three directions from which [Frenet::operator()] builds its
    frame, [d], [d ^ (a ^ d)] and [d ^ a], are orthogonal to one another
    for every first derivative [d] and second derivative [a]. *)
Theorem Frenet_axes_orthogonal (d a : Point 3) :
  let '(v0, v1, v2) := Frenet_axes d a in
  dot v0 v1 = 0 ∧ dot v0 v2 = 0 ∧ dot v1 v2 = 0.
Proof.
  unfold Frenet_axes. split_and!; vec_ring d a.
Qed.

Lemma foldl_equal (l1 l2 : list Real) (acc : bool) :
  length l1 = length l2 →
  foldl (λ res xy, res && bool_decide (xy.1 = xy.2)) acc (zip l1 l2)
  = acc && bool_decide (l1 = l2).
Proof.
  revert l2 acc. induction l1 as [|x l1 IH]; intros [|y l2] acc Hlen;
    try discriminate.
  - rewrite (bool_decide_eq_true_2 (@nil Real = [])) by done. by destruct acc.
  - simpl. rewrite IH by (simpl in Hlen; lia). rewrite <- andb_assoc. f_equal.
    destruct (decide (x = y)) as [->|Hne].
    + rewrite (bool_decide_eq_true_2 (y = y)) by done. simpl.
      apply bool_decide_ext. split; [by intros -> | by intros [= ->]].
    + rewrite (bool_decide_eq_false_2 (x = y)) by done. simpl.
      symmetry. apply bool_decide_eq_false_2. by intros [= ? ?].
Qed.

Lemma foldl_not_equal (l1 l2 : list Real) (acc : bool) :
  length l1 = length l2 →
  foldl (λ res xy, res || bool_decide (xy.1 ≠ xy.2)) acc (zip l1 l2)
  = acc || negb (bool_decide (l1 = l2)).
Proof.
  revert l2 acc. induction l1 as [|x l1 IH]; intros [|y l2] acc Hlen;
    try discriminate.
  - rewrite (bool_decide_eq_true_2 (@nil Real = [])) by done. by destruct acc.
  - simpl. rewrite IH by (simpl in Hlen; lia). rewrite <- orb_assoc. f_equal.
    destruct (decide (x = y)) as [->|Hne].
    + rewrite (bool_decide_eq_false_2 (y ≠ y)) by (intros H; by apply H).
      simpl. f_equal.
      apply bool_decide_ext. split; [by intros -> | by intros [= ->]].
    + rewrite (bool_decide_eq_true_2 (x ≠ y)) by done. simpl.
      symmetry. apply negb_true_iff, bool_decide_eq_false_2. by intros [= ? ?].
Qed.

(** X18. [operator==] holds exactly when all the coordinates are equal
    and never looks at the weights, and [operator!=] is its negation. *)
Theorem equal_coordinates {N : nat} (a b : Point N) :
  (equal a b = true ↔ coords a = coords b)
  ∧ not_equal a b = negb (equal a b).
Proof.
  unfold equal, not_equal.
  rewrite foldl_equal, foldl_not_equal by (by rewrite !length_vec_to_list).
  split; [|done]. simpl. rewrite bool_decide_eq_true.
  split; [apply vec_to_list_inj2 | by intros ->].
Qed.

(** ** The derivative of order 0 *)

(** Two loops whose bodies are alike are alike. *)
Lemma for_up_rel {A B : Type} (R : Z → A → B → Prop) (f : Z → A → result A)
    (g : Z → B → result B) (lo : Z) (count : nat) (a : A) (b : B) :
  (∀ i a b, (lo ≤ i < lo + Z.of_nat count)%Z → R i a b →
            rel_result (R (i + 1)%Z) (f i a) (g i b)) →
  R lo a b →
  rel_result (R (lo + Z.of_nat count)%Z) (for_up f lo count a) (for_up g lo count b).
Proof.
  revert lo a b. induction count as [|count IH]; intros lo a b Hbody Hab.
  - simpl. by replace (lo + Z.of_nat 0)%Z with lo by lia.
  - cbn [for_up]. pose proof (Hbody lo a b ltac:(lia) Hab) as Hstep.
    destruct (f lo a) as [a'|e], (g lo b) as [b'|e']; simpl in *; try done.
    replace (lo + Z.of_nat (S count))%Z with (lo + 1 + Z.of_nat count)%Z by lia.
    apply IH; [|done]. intros i x y Hi. apply Hbody. lia.
Qed.

Lemma rd2_wr2_eq (p : Z) (m : list (list Real)) (i j : Z) (x : Real) :
  square p m → (0 ≤ i ≤ p)%Z → (0 ≤ j ≤ p)%Z → rd2 (wr2 m i j x) i j = x.
Proof.
  intros [Hlen Hrows] Hi Hj. unfold rd2, wr2.
  rewrite list_lookup_total_insert_eq by lia.
  apply rd_wr_eq.
  destruct (lookup_lt_is_Some_2 m (Z.to_nat i)) as [row Hrow]; [lia|].
  rewrite (list_lookup_total_correct _ _ _ Hrow).
  rewrite (proj1 (Forall_lookup _ _) Hrows _ _ Hrow). lia.
Qed.

Lemma rd2_wr2_ne (m : list (list Real)) (i j i' j' : Z) (x : Real) :
  (0 ≤ i)%Z → (0 ≤ j)%Z → (0 ≤ i')%Z → (0 ≤ j')%Z → (i ≠ i' ∨ j ≠ j') →
  rd2 (wr2 m i j x) i' j' = rd2 m i' j'.
Proof.
  intros Hi Hj Hi' Hj' Hne. unfold rd2, wr2.
  rewrite list_lookup_total_insert.
  destruct (decide _) as [[Heq _]|]; [|done].
  assert (i = i') as <- by lia. apply rd_wr_ne; [done | done | lia].
Qed.

Lemma square_wr2 (p : Z) (m : list (list Real)) (i j : Z) (x : Real) :
  square p m → square p (wr2 m i j x).
Proof.
  intros [Hlen Hrows]. unfold wr2. split; [by rewrite length_insert|].
  destruct (m !! Z.to_nat i) as [row|] eqn:Hrow.
  - apply Forall_insert; [done|].
    rewrite length_wr, (list_lookup_total_correct _ _ _ Hrow).
    by apply (proj1 (Forall_lookup _ _) Hrows _ _ Hrow).
  - rewrite list_insert_ge; [done|]. by apply lookup_ge_None.
Qed.

Lemma square_array2 (p : Z) : square p (array2 (p + 1) (p + 1)).
Proof.
  unfold square, array2. split; [apply length_replicate|].
  apply Forall_replicate, length_array.
Qed.

Lemma ders_ndu_inner_rel (p : Z) (left_ right_ : list Real) (j r : Z)
    (st : list (list Real) * Real) (st' : list Real * Real) :
  (1 ≤ j ≤ p)%Z → (0 ≤ r < j)%Z → ndu_inner_rel p j r st st' →
  rel_result (ndu_inner_rel p j (r + 1))
    (ders_ndu_inner left_ right_ j r st) (basisFuns_inner left_ right_ j r st').
Proof.
  intros Hj Hr. destruct st as [ndu saved], st' as [N_ saved'].
  intros (Hsaved & Hsq & Hlen & Hnew & Hold).
  simpl in Hsaved, Hsq, Hlen, Hnew, Hold. subst saved'.
  unfold ders_ndu_inner, basisFuns_inner.
  set (den := rd right_ (r + 1) + rd left_ (j - r)).
  rewrite (rd2_wr2_ne ndu j r r (j - 1)) by lia.
  rewrite (rd2_wr2_eq p) by (done || lia).
  rewrite (Hold r) by lia.
  destruct (rdiv (rd N_ r) den) as [temp|e]; [|done].
  rewrite !Ok_bind. unfold rel_result, ndu_inner_rel. cbn [fst snd].
  assert (square p (wr2 ndu j r den)) as Hsq1 by by apply square_wr2.
  split_and!; [done | by apply square_wr2 | by rewrite length_wr | |].
  - intros k Hk. destruct (decide (k = r)) as [->|Hne].
    + rewrite (rd2_wr2_eq p) by (done || lia). by rewrite rd_wr_eq by lia.
    + rewrite !rd2_wr2_ne by lia. rewrite rd_wr_ne by lia. apply Hnew. lia.
  - intros k Hk. rewrite !rd2_wr2_ne by lia. rewrite rd_wr_ne by lia.
    apply Hold. lia.
Qed.

Lemma ders_ndu_outer_rel (i : Z) (u : Real) (p : Z) (U : list Real) (j : Z)
    (st : list (list Real) * list Real * list Real)
    (st' : list Real * list Real * list Real) :
  (1 ≤ j ≤ p)%Z → ndu_outer_rel p j st st' →
  rel_result (ndu_outer_rel p (j + 1))
    (ders_ndu_outer i u U j st) (basisFuns_outer i u U j st').
Proof.
  intros Hj. destruct st as [[ndu left_] right_], st' as [[N_ left_'] right_'].
  intros (Hl & Hr & Hsq & Hlen & Hcol). simpl in Hl, Hr, Hsq, Hlen, Hcol.
  subst left_' right_'. unfold ders_ndu_outer, basisFuns_outer.
  destruct (at_ U (i + 1 - j)) as [Ul|e]; [|done]. rewrite !Ok_bind.
  destruct (at_ U (i + j)) as [Ur|e]; [|done]. rewrite !Ok_bind.
  pose proof (for_up_rel (ndu_inner_rel p j)
    (ders_ndu_inner (wr left_ j (u - Ul)) (wr right_ j (Ur - u)) j)
    (basisFuns_inner (wr left_ j (u - Ul)) (wr right_ j (Ur - u)) j)
    0 (Z.to_nat j) (ndu, 0) (N_, 0)) as Hinner.
  destruct (for_up (ders_ndu_inner _ _ _) _ _ _) as [[ndu1 s1]|e],
           (for_up (basisFuns_inner _ _ _) _ _ _) as [[N1 s1']|e'];
    simpl in Hinner.
  - destruct Hinner as (Hs & Hsq1 & Hlen1 & Hnew & _).
    + intros r a b Hr. apply ders_ndu_inner_rel; lia.
    + split_and!; try done. intros k Hk. lia.
    + simpl in Hs, Hsq1, Hlen1, Hnew. subst s1'. rewrite !Ok_bind.
      unfold rel_result, ndu_outer_rel. cbn [fst snd].
      split_and!; [done | done | by apply square_wr2 | by rewrite length_wr|].
      intros k Hk. replace (j + 1 - 1)%Z with j by lia.
      destruct (decide (k = j)) as [->|Hne].
      * rewrite (rd2_wr2_eq p) by (done || lia). by rewrite rd_wr_eq by lia.
      * rewrite rd2_wr2_ne by lia. rewrite rd_wr_ne by lia. apply Hnew. lia.
  - exfalso. apply Hinner.
    + intros r a b Hr. apply ders_ndu_inner_rel; lia.
    + split_and!; try done. intros k Hk. lia.
  - exfalso. apply Hinner.
    + intros r a b Hr. apply ders_ndu_inner_rel; lia.
    + split_and!; try done. intros k Hk. lia.
  - simpl. apply Hinner.
    + intros r a b Hr. apply ders_ndu_inner_rel; lia.
    + split_and!; try done. intros k Hk. lia.
Qed.

(** For the order 0, row 0 of the table filled by [dersBasisFuns] holds
    the values of [basisFuns], and the two fail alike. *)
Lemma dersBasisFuns_order_zero (i : Z) (u : Real) (p : Z) (U : list Real) :
  (0 ≤ p)%Z →
  rel_result (λ ders N_, ∀ j, (0 ≤ j ≤ p)%Z → Matrix.get ders 0 j = rd N_ j)
    (dersBasisFuns i u p 0 U (Matrix.new (0 + 1) (p + 1)))
    (basisFuns i u p U).
Proof.
  intros Hp. unfold dersBasisFuns, basisFuns, for_to.
  assert (rel_result (ndu_outer_rel p (1 + Z.of_nat (Z.to_nat (p - 1 + 1))))
    (for_up (ders_ndu_outer i u U) 1 (Z.to_nat (p - 1 + 1))
       (wr2 (array2 (p + 1) (p + 1)) 0 0 1, array (p + 1), array (p + 1)))
    (for_up (basisFuns_outer i u U) 1 (Z.to_nat (p - 1 + 1))
       (wr (array (p + 1)) 0 1, array (p + 1), array (p + 1)))) as Hloop.
  { apply for_up_rel.
    - intros j a b Hj. apply ders_ndu_outer_rel. lia.
    - unfold ndu_outer_rel. cbn [fst snd]. split_and!; try done.
      + by apply square_wr2, square_array2.
      + rewrite length_wr, length_array. lia.
      + intros k Hk. assert (k = 0)%Z as -> by lia.
        replace (1 - 1)%Z with 0%Z by lia.
        rewrite (rd2_wr2_eq p) by (by apply square_array2 || lia).
        by rewrite rd_wr_eq by (rewrite length_array; lia). }
  destruct (for_up (ders_ndu_outer i u U) _ _ _) as [[[ndu l1] r1]|e],
           (for_up (basisFuns_outer i u U) _ _ _) as [[[N_ l2] r2]|e'];
    try done.
  destruct Hloop as (_ & _ & Hsq & Hlen & Hcol).
  cbn [fst snd] in Hsq, Hlen, Hcol. rewrite !Ok_bind.
  (* Load the basis functions *)
  destruct (for_up_ind
    (λ j ders,
       Matrix.rows ders = 1%Z
       ∧ Z.of_nat (length (Matrix.data ders)) = ((p + 1) * 4)%Z
       ∧ ∀ k, (0 ≤ k < j)%Z → Matrix.get ders 0 k = rd2 ndu k p)
    (λ j ders, Ok (Matrix.set ders 0 j (rd2 ndu j p)))
    0 (Z.to_nat (p - 0 + 1)) (Matrix.new (0 + 1) (p + 1)))
    as (ders & -> & Hrows & Hdata & Hload).
  { intros j ders Hj (Hrows & Hdata & Hload).
    eexists. split; [reflexivity|]. unfold Matrix.set, Matrix.get. simpl.
    rewrite Hrows. split_and!; [done | by rewrite length_wr|].
    intros k Hk. destruct (decide (k = j)) as [->|Hne].
    - apply rd_wr_eq. lia.
    - rewrite rd_wr_ne by lia. specialize (Hload k ltac:(lia)).
      unfold Matrix.get in Hload. by rewrite Hrows in Hload. }
  { split_and!; [done | | intros; lia].
    unfold Matrix.new, Matrix.sizeof_Real. simpl Matrix.data.
    rewrite length_array. lia. }
  rewrite Ok_bind.
  (* The derivatives: nothing to compute for the order 0 *)
  destruct (for_up_ind
    (λ (_ : Z) (st : Matrix.Matrix * list (list Real)), st.1 = ders)
    (ders_r_body ndu p 0) 0 (Z.to_nat (p - 0 + 1))
    (ders, array2 2 (p + 1))) as ([ders' a] & -> & Hders).
  { intros r [d0 a0] Hr Hd0. simpl in Hd0. subst d0.
    eexists. split; [reflexivity | done]. }
  { done. }
  simpl in Hders. subst ders'. rewrite Ok_bind. simpl.
  intros j Hj. rewrite Hload by lia.
  replace p with (1 + Z.of_nat (Z.to_nat (p - 1 + 1)) - 1)%Z at 1 by lia.
  apply Hcol. lia.
Qed.

Lemma scale_unit_weight {N : nat} (P : Point N) (r : Real) :
  weight P = 1 → scale (scale P (weight P)) r = scale P r.
Proof.
  intros ->. unfold scale. simpl. f_equal. apply vec_eq. intros i.
  rewrite !vlookup_map. ring.
Qed.

(** X19. On a curve whose weights are all 1, the derivative of order 0 is
    the position: [derivative( t, 0 )] and [operator()( t )] return the
    same point, and fail together. *)
Theorem derivative_order_zero {N : nat} (fuel : nat) (s : Spline N) (t : Real) :
  non_rational s → derivative fuel s t 0 = position fuel s t.
Proof.
  intros Hunit. unfold derivative, position, curveDerivs, curvePoint.
  rewrite decide_False by lia.
  destruct (adjustParameter fuel s t) as [u|e]; [|done]. rewrite !Ok_bind.
  destruct (decide _) as [|Hp]; [done|]. cbv zeta.
  destruct (findSpan _ _ _ _ _) as [span|e]; [|done]. rewrite !Ok_bind.
  rewrite Z.min_l by lia.
  pose proof (dersBasisFuns_order_zero span u (getDegree s) (knotVector s)
                ltac:(lia)) as Hders.
  destruct (dersBasisFuns _ _ _ _ _ _) as [nders|e],
           (basisFuns _ _ _ _) as [N_|e']; simpl in Hders; try done;
    [|by subst].
  rewrite !Ok_bind.
  change (replicate (Z.to_nat (0 + 1)) (@origin N)) with (@origin N :: []).
  unfold for_to at 1. change (Z.to_nat (0 - 0 + 1)) with 1%nat.
  cbn [for_up]. unfold for_to.
  assert (rel_result (λ CK Cw, CK = (Cw :: []) ∧ weight Cw = 1)
    (for_up (curveDerivs_body (getDegree s) span (controlPoints s) nders 0)
       0 (Z.to_nat (getDegree s - 0 + 1)) (origin :: []))
    (for_up
       (λ j Cw,
          Pi ← index (controlPoints s) (span - getDegree s + j);
          Ok (add_assign Cw (scale (scale Pi (weight Pi)) (rd N_ j))))
       0 (Z.to_nat (getDegree s - 0 + 1)) origin)) as Hsum.
  { apply (for_up_rel
      (λ (_ : Z) (CK : list (Point N)) (Cw : Point N),
         CK = (Cw :: []) ∧ weight Cw = 1)); [|done].
    intros j CK0 Cw0 Hj [-> Hw]. unfold curveDerivs_body.
    destruct (index _ _) as [Pj|e] eqn:HPj; [|done]. simpl.
    apply index_elem_of in HPj.
    rewrite scale_unit_weight
      by (by eapply (proj1 (Forall_lookup _ _) Hunit)).
    rewrite Hders by lia. done. }
  destruct (for_up (curveDerivs_body _ _ _ _ _) _ _ _) as [CK|e],
           (for_up _ 0 _ origin) as [Cw|e']; simpl in Hsum; try done.
  - destruct Hsum as [-> Hw]. rewrite !Ok_bind. by rewrite div_one.
  - by subst.
Qed.

Lemma derivative_order_zero_witness :
  derivative 10 Examples.main_curve (Examples.q 1 3) 0
  = position 10 Examples.main_curve (Examples.q 1 3).
Proof.
  apply (derivative_order_zero 10 Examples.main_curve (Examples.q 1 3)).
  unfold non_rational. simpl. repeat constructor.
Defined.

(** ** Inserting and erasing a control point *)

(** X20. Erasing the control point that was just inserted gives the
    spline back, when the position is within the control points and the
    knots of the spline are those that [computeUniformKnotVector] leaves
    (the knots of a non-uniform spline, or the generated ones). *)
Theorem insert_erase_round_trip {N : nat} (position : nat) (P : Point N)
    (s : Spline N) :
  (position ≤ length (controlPoints s))%nat →
  computeUniformKnotVector s = s →
  eraseControlPoint position (insertControlPoint position P s) = s.
Proof.
  intros Hpos Hs.
  assert (delete position
            (take position (controlPoints s) ++ P :: drop position (controlPoints s))
          = controlPoints s) as Hdel.
  { rewrite <- (length_take_le (controlPoints s) position) at 1 by done.
    rewrite delete_middle. apply take_drop. }
  destruct s as [cps U p uniform clamped].
  unfold eraseControlPoint, insertControlPoint, computeUniformKnotVector,
    setControlPoints in *.
  simpl in *. destruct uniform; simpl in *; [|by rewrite Hdel].
  rewrite Hdel. done.
Qed.

Lemma insert_erase_round_trip_witness :
  eraseControlPoint 2
    (insertControlPoint 2 (point [# Examples.q 5 1; Examples.q 5 1; Examples.q 5 1])
       Examples.main_curve)
  = Examples.main_curve.
Proof.
  apply (insert_erase_round_trip 2
           (point [# Examples.q 5 1; Examples.q 5 1; Examples.q 5 1])
           Examples.main_curve).
  - vm_compute. lia.
  - vm_compute. reflexivity.
Defined.
